(** * scdetect: the linker, the config validators and waveform trimming

    A shallow embedding of
      - [src/apps/scdetect/validators.cpp]   (threshold validators),
      - [src/apps/scdetect/waveform.cpp]     ([waveform::Trim]),
      - [src/apps/scdetect/detector/linker.cpp] (the multi-channel linker),
    together with the properties the specification states about them.

    Conventions.
      - A C++ [double] is an IEEE-754 binary64 value, embedded as
        [spec_float] with the comparison and arithmetic of the standard
        library's [SpecFloat] at precision 53 and [emax = 1024].
      - [Core::Time] and [Core::TimeSpan] are counts of microseconds in [Z].
      - [std::unordered_map<std::string, V>] is [gmap string V],
        [std::unordered_set<std::string>] is [gset string]. *)

From Stdlib Require Import ZArith QArith Lia SpecFloat.
From stdpp Require Import gmap strings list.

Local Open Scope Z_scope.

(** * IEEE-754 binary64 *)

Module Double.

Definition prec : Z := 53.
Definition emax : Z := 1024.

Definition double : Type := spec_float.

(** The doubles a program can hold: canonical mantissa, bounded exponent. *)
Definition valid (x : double) : Prop := valid_binary prec emax x = true.

Definition ltb (x y : double) : bool := SFltb x y.
Definition leb (x y : double) : bool := SFleb x y.
Definition add (x y : double) : double := SFadd prec emax x y.
Definition sub (x y : double) : double := SFsub prec emax x y.
Definition mul (x y : double) : double := SFmul prec emax x y.
Definition div (x y : double) : double := SFdiv prec emax x y.

(** Conversion of an integer to the nearest double (an implicit
    [int -> double] conversion, exact for |z| < 2^53). *)
Definition of_Z (z : Z) : double := binary_normalize prec emax z 0 false.

(** [static_cast<int>(x)]: truncation toward zero; the behaviour is
    undefined ([None]) for NaN, infinities and values outside [int]. *)
Definition int_min : Z := - 2 ^ 31.
Definition int_max : Z := 2 ^ 31 - 1.

Definition trunc (x : double) : option Z :=
  match x with
  | S754_zero _ => Some 0
  | S754_finite s m e =>
      let a := if 0 <=? e then Z.pos m * 2 ^ e else Z.pos m / 2 ^ (- e) in
      Some (if s then - a else a)
  | _ => None
  end.

Definition to_int (x : double) : option Z :=
  match trunc x with
  | Some z => if (int_min <=? z) && (z <=? int_max) then Some z else None
  | None => None
  end.

(** ** Real value of a double

    Every finite binary64 value is an integer multiple of 2^-1074, so a
    finite double [x] is the rational [scaled x / 2^1074]. *)

Definition shift : Z := 1074.
Definition denom : positive := Eval vm_compute in (2 ^ 1074)%positive.

Definition scaled (x : double) : Z :=
  match x with
  | S754_finite s m e => cond_Zopp s (Z.pos m * 2 ^ (e + shift))
  | _ => 0
  end.

Definition SF2Q (x : double) : Q := scaled x # denom.

(** Extended reals: the value of a double that is not a NaN. *)
Inductive xreal : Type :=
  | NegInf : xreal
  | Num : Q -> xreal
  | PosInf : xreal.

Definition value (x : double) : option xreal :=
  match x with
  | S754_nan => None
  | S754_infinity true => Some NegInf
  | S754_infinity false => Some PosInf
  | _ => Some (Num (SF2Q x))
  end.

Definition xle (a b : xreal) : Prop :=
  match a, b with
  | NegInf, _ => True
  | _, PosInf => True
  | Num p, Num q => (p <= q)%Q
  | _, _ => False
  end.

Definition xlt (a b : xreal) : Prop :=
  match a, b with
  | NegInf, NegInf => False
  | NegInf, _ => True
  | PosInf, _ => False
  | Num p, Num q => (p < q)%Q
  | Num _, PosInf => True
  | Num _, NegInf => False
  end.

(** Order of two doubles as [SFcompare] should report it. *)
Definition value_compare (x y : double) : option comparison :=
  match x, y with
  | S754_nan, _ | _, S754_nan => None
  | S754_infinity s1, S754_infinity s2 =>
      Some (if s1 then if s2 then Eq else Lt else if s2 then Gt else Eq)
  | S754_infinity s, _ => Some (if s then Lt else Gt)
  | _, S754_infinity s => Some (if s then Gt else Lt)
  | _, _ => Some (scaled x ?= scaled y)
  end.

End Double.

Import Double.

(** * Config validators ([validators.cpp]) *)

Module config.

(** The literal [2.0e-6]: the binary64 value nearest to 2/10^6. *)
Definition lit_2em6 : double := S754_finite false 4722366482869645 (-71).

(** [return -1 <= thres && 1 >= thres;] *)
Definition ValidateXCorrThreshold (thres : double) : bool :=
  leb (of_Z (-1)) thres && leb thres (of_Z 1).

(** [return thres < 0 || (thres >= 2.0e-6);] *)
Definition ValidateArrivalOffsetThreshold (thres : double) : bool :=
  ltb thres (of_Z 0) || leb lit_2em6 thres.

(** [ValidateMinArrivals(int n, int num_stream_configs)] *)
Definition ValidateMinArrivals (n num_stream_configs : Z) : bool :=
  if n <? 0 then true
  else if 0 <? num_stream_configs then 1 <=? n
       else (1 <=? n) && (n <=? num_stream_configs).

End config.

(** * Seiscomp core types used by the detector

    [Core::Time] and [Core::TimeSpan] store seconds and microseconds; both
    are embedded as a number of microseconds.  The conversions between
    [TimeSpan] and [double] belong to the Seiscomp library and are kept
    abstract. *)

Module Core.

Definition Time : Type := Z.
Definition TimeSpan : Type := Z.

Class Conversions : Type := {
  (** [Core::TimeSpan{d}] *)
  TimeSpan_of_double : double -> TimeSpan;
  (** [static_cast<double>(span)] *)
  double_of_TimeSpan : TimeSpan -> double
}.

Record TimeWindow : Type := {
  startTime : Time;
  endTime : Time
}.

(** [TimeWindow::length()], in seconds *)
Definition length `{Conversions} (tw : TimeWindow) : double :=
  double_of_TimeSpan (endTime tw - startTime tw).

(** A reference implementation of the conversions: seconds are
    microseconds divided by 10^6, rounded to nearest; a span is built from
    a double by truncating its microseconds (0 for a NaN or an infinity). *)
Definition ref_double_of_TimeSpan (t : TimeSpan) : double :=
  div (of_Z t) (of_Z 1000000).

Definition ref_TimeSpan_of_double (d : double) : TimeSpan :=
  default 0 (trunc (mul d (of_Z 1000000))).

Definition ref_conversions : Conversions := {|
  TimeSpan_of_double := ref_TimeSpan_of_double;
  double_of_TimeSpan := ref_double_of_TimeSpan
|}.

End Core.

(** * Trimming a trace ([waveform.cpp]) *)

Module waveform.

Record GenericRecord : Type := {
  streamID : string;
  startTime : Core.Time;
  samplingFrequency : double;
  data : list double
}.

Definition setStartTime (t : Core.Time) (trace : GenericRecord) : GenericRecord :=
  {| streamID := streamID trace; startTime := t;
     samplingFrequency := samplingFrequency trace; data := data trace |}.

Definition setData (d : list double) (trace : GenericRecord) : GenericRecord :=
  {| streamID := streamID trace; startTime := startTime trace;
     samplingFrequency := samplingFrequency trace; data := d |}.

(** [data()->size()] is an [int]. *)
Definition size (trace : GenericRecord) : Z := Z.of_nat (List.length (data trace)).

(** [Array::slice(m, n)]: the samples at positions [m <= i < n]. *)
Definition slice (m n : Z) (d : list double) : list double :=
  take (Z.to_nat (n - m)) (drop (Z.to_nat m) d).

(** [int + int]; signed overflow is undefined. *)
Definition int_add (a b : Z) : option Z :=
  if (int_min <=? a + b) && (a + b <=? int_max) then Some (a + b) else None.

Section Trim.
Context `{Core.Conversions}.

(** [auto offset{static_cast<int>(static_cast<double>(tw.startTime() -
    trace.startTime()) * trace.samplingFrequency())}] *)
Definition Trim_offset (trace : GenericRecord) (tw : Core.TimeWindow) : option Z :=
  to_int (mul (Core.double_of_TimeSpan (Core.startTime tw - startTime trace))
              (samplingFrequency trace)).

(** [auto samples{static_cast<int>(tw.length() * trace.samplingFrequency())}] *)
Definition Trim_samples (trace : GenericRecord) (tw : Core.TimeWindow) : option Z :=
  to_int (mul (Core.length tw) (samplingFrequency trace)).

(** [bool Trim(GenericRecord &trace, const Core::TimeWindow &tw)].
    The result is [None] where the C++ code has undefined behaviour (a
    conversion to [int] out of range, or signed overflow); otherwise it is
    the returned flag and the trace after the call. *)
Definition Trim (trace : GenericRecord) (tw : Core.TimeWindow)
  : option (bool * GenericRecord) :=
  offset ← Trim_offset trace tw;
  samples ← Trim_samples trace tw;
  (* Not enough data at start of time window *)
  if offset <? 0 then Some (false, trace)
  else
    last ← int_add offset samples;
    (* Not enough data at end of time window *)
    if size trace <? last then Some (false, trace)
    else
      let trace1 :=
        setStartTime (startTime trace +
                      Core.TimeSpan_of_double
                        (div (of_Z offset) (samplingFrequency trace))) trace in
      Some (true, setData (slice offset last (data trace1)) trace1).

(** [Record::endTime()]: the trace ends [size / samplingFrequency]
    seconds after its start. *)
Definition endTime (trace : GenericRecord) : Core.Time :=
  startTime trace +
  Core.TimeSpan_of_double (div (of_Z (size trace)) (samplingFrequency trace)).


End Trim.

(** A trace of eight samples at 4 Hz starting at 0 s, and the trace
    trimmed to [0.5 s, 1.5 s). *)
Definition trace8 : GenericRecord :=
  {| streamID := "CH.GRIMS..HHZ"; startTime := 0;
     samplingFrequency := of_Z 4;
     data := of_Z <$> [10; 11; 12; 13; 14; 15; 16; 17] |}.

Definition trace8_trimmed : GenericRecord :=
  {| streamID := "CH.GRIMS..HHZ"; startTime := 500000;
     samplingFrequency := of_Z 4;
     data := of_Z <$> [12; 13; 14; 15] |}.





End waveform.

(** * The linker ([detector/linker.cpp]) *)

Module detector.

Record Pick : Type := {
  time : Core.Time;
  waveformStreamId : string
}.

Record Arrival : Type := {
  pick : Pick;
  phase : string
}.

(** [newArrival.pick.time = t] *)
Definition setPickTime (t : Core.Time) (a : Arrival) : Arrival :=
  {| pick := {| time := t; waveformStreamId := waveformStreamId (pick a) |};
     phase := phase a |}.

(** [TemplateWaveformProcessor::MatchResult] *)
Record MatchResult : Type := {
  coefficient : double;
  lag : double;
  timeWindow : Core.TimeWindow
}.

(** What the linker reads of a template waveform processor. *)
Record TemplateWaveformProcessor : Type := {
  id : string;
  templateStartTime : option Core.Time
}.

(** [std::unordered_map::emplace]: inserts only if the key is absent. *)
Definition emplace {V : Type} (k : string) (v : V) (m : gmap string V)
  : gmap string V :=
  match m !! k with
  | Some _ => m
  | None => <[k := v]> m
  end.

(** The values of a map, in iteration order. *)
Definition values {V : Type} (m : gmap string V) : list V :=
  (map_to_list m).*2.

(** The pick offset table.  [detector/pot.h] is not part of the sources;
    the linker is written against this interface. *)
Class POTInterface : Type := {
  POT : Type;
  (** [POT{}] *)
  POT_default : POT;
  (** [POT{arrivals}] *)
  POT_make : list Arrival -> POT;
  (** [pot.enable()] *)
  POT_enable : POT -> POT;
  (** [pot.disable(wfIds)] *)
  POT_disable : gset string -> POT -> POT;
  (** [validatePickOffsets(lhs, rhs, exceeded, thres)]: the returned flag
      and the contents of [exceeded] after the call *)
  validatePickOffsets : POT -> POT -> double -> bool * gset string
}.

Module utils.

(** Modelled from the spec: [utils::cma] (the helper is not part of the
    sources) computes the mean of [n] samples: "fit = mean of
    participating coefficients". *)
Definition cma (samples : list double) : double :=
  div (foldl add (of_Z 0) samples) (of_Z (Z.of_nat (List.length samples))).

End utils.

(** Modelled from the spec: the pick offset table of [detector/pot.h]
    (not part of the sources).  "Given an ordered vector of arrivals, store
    M[i][j] = |a_i.pickTime - a_j.pickTime| and per-arrival enable flags
    (default true)"; [enable()] and [disable(streamIds)] set the flags;
    validation "succeeds iff, for every enabled pair (i, j),
    |reference[i][j] - candidate[i][j]| <= tolerance; streams contributing
    any violation are collected into exceeded".  Entries are matched by
    position, as the spec writes them.  The linker itself is modelled
    against [POTInterface]; this table serves to run it. *)
Module SpecPOT.
Section SpecPOT.
Context `{Core.Conversions}.

Record t : Type := {
  arrivals : list Arrival;
  enabled : list bool
}.

Definition make (a : list Arrival) : t :=
  {| arrivals := a; enabled := replicate (List.length a) true |}.

(** [M[i][j]] *)
Definition offset (p : t) (i j : nat) : option Core.TimeSpan :=
  a ← arrivals p !! i; b ← arrivals p !! j;
  Some (Z.abs (time (pick a) - time (pick b))).

Definition enable (p : t) : t := make (arrivals p).

Definition disable (wfIds : gset string) (p : t) : t :=
  {| arrivals := arrivals p;
     enabled :=
       zip_with (fun a e =>
                   if bool_decide (waveformStreamId (pick a) ∈ wfIds)
                   then false else e)
                (arrivals p) (enabled p) |}.

Definition is_enabled (p : t) (i : nat) : bool := default false (enabled p !! i).

Definition streamOf (p : t) (i : nat) : list string :=
  match arrivals p !! i with
  | Some a => [waveformStreamId (pick a)]
  | None => []
  end.

(** The enabled pairs of the reference table. *)
Definition enabledPairs (p : t) : list (nat * nat) :=
  let idx := List.filter (is_enabled p) (seq 0 (List.length (arrivals p))) in
  i ← idx; j ← idx; [(i, j)].

(** A pair violates when the offsets differ by more than the tolerance
    (in seconds); a pair the candidate has no entry for does not validate. *)
Definition violates (reference candidate : t) (tolerance : double)
    (ij : nat * nat) : bool :=
  match offset reference ij.1 ij.2, offset candidate ij.1 ij.2 with
  | Some r, Some c =>
      negb (leb (Core.double_of_TimeSpan (Z.abs (r - c))) tolerance)
  | _, _ => true
  end.

Definition validate (reference candidate : t) (tolerance : double)
  : bool * gset string :=
  let bad := List.filter (violates reference candidate tolerance)
                         (enabledPairs reference) in
  (bool_decide (bad = []),
   list_to_set (ij ← bad; streamOf reference ij.1 ++ streamOf reference ij.2)).

Definition interface : POTInterface := {|
  POT := t;
  POT_default := make [];
  POT_make := make;
  POT_enable := enable;
  POT_disable := disable;
  validatePickOffsets := validate
|}.

End SpecPOT.
End SpecPOT.

Inductive Status : Type := kWaitingForData | kTerminated.

Definition Status_as_integer (s : Status) : Z :=
  match s with kWaitingForData => 0 | kTerminated => 1 end.

Section Linker.
Context `{Core.Conversions} `{POTInterface}.
(** The state the result callback acts on. *)
Context {World : Type}.

Record TemplateResult : Type := {
  arrival : Arrival;
  matchResult : MatchResult
}.

(** [Linker::Result]; [results] is a [std::unordered_map] from processor
    ids to template results ([debugString] reads it with [at]). *)
Record Result : Type := {
  results : gmap string TemplateResult;
  refProcId : string;
  fit : double;
  pot : POT
}.

(** [Linker::Event] *)
Record Event : Type := {
  expired : Core.Time;
  refPickTime : option Core.Time;
  result : Result
}.

(** [Event{expired}] *)
Definition Event_make (deadline : Core.Time) : Event :=
  {| expired := deadline; refPickTime := None;
     result := {| results := ∅; refProcId := ""; fit := of_Z 0;
                  pot := POT_default |} |}.

(** [Linker::Processor]: the registered processor, as the linker finds it
    behind the pointer, and its template arrival. *)
Record Processor : Type := {
  proc : TemplateWaveformProcessor;
  proc_arrival : Arrival
}.

Definition PublishResultCallback : Type := Result -> World -> World.

(** The state of a [Linker]; [_processors] maps a processor id to its
    [Processor], [_queue] is the event queue from front to back. *)
Record Linker : Type := {
  _thresArrivalOffset : option double;
  _thresResult : option double;
  _minArrivals : option nat;
  _onHold : Core.TimeSpan;
  _status : Status;
  _processors : gmap string Processor;
  _queue : list Event;
  _pot : POT;
  _potValid : bool;
  _resultCallback : option PublishResultCallback
}.

Definition with_processors (ps : gmap string Processor) (potValid : bool)
    (l : Linker) : Linker :=
  {| _thresArrivalOffset := _thresArrivalOffset l;
     _thresResult := _thresResult l; _minArrivals := _minArrivals l;
     _onHold := _onHold l; _status := _status l; _processors := ps;
     _queue := _queue l; _pot := _pot l; _potValid := potValid;
     _resultCallback := _resultCallback l |}.

Definition with_queue (q : list Event) (pt : POT) (potValid : bool)
    (st : Status) (l : Linker) : Linker :=
  {| _thresArrivalOffset := _thresArrivalOffset l;
     _thresResult := _thresResult l; _minArrivals := _minArrivals l;
     _onHold := _onHold l; _status := st; _processors := _processors l;
     _queue := q; _pot := pt; _potValid := potValid;
     _resultCallback := _resultCallback l |}.

(** [Linker::Linker(onHold, arrivalOffsetThres)] *)
Definition Linker_make (onHold : Core.TimeSpan) (arrivalOffsetThres : double)
  : Linker :=
  {| _thresArrivalOffset := Some arrivalOffsetThres;
     _thresResult := None; _minArrivals := None; _onHold := onHold;
     _status := kWaitingForData; _processors := ∅; _queue := [];
     _pot := POT_default; _potValid := false; _resultCallback := None |}.

Definition setThresArrivalOffset (thres : option double) (l : Linker) : Linker :=
  {| _thresArrivalOffset := thres;
     _thresResult := _thresResult l; _minArrivals := _minArrivals l;
     _onHold := _onHold l; _status := _status l;
     _processors := _processors l; _queue := _queue l; _pot := _pot l;
     _potValid := _potValid l; _resultCallback := _resultCallback l |}.

Definition setThresResult (thres : option double) (l : Linker) : Linker :=
  {| _thresArrivalOffset := _thresArrivalOffset l;
     _thresResult := thres; _minArrivals := _minArrivals l;
     _onHold := _onHold l; _status := _status l;
     _processors := _processors l; _queue := _queue l; _pot := _pot l;
     _potValid := _potValid l; _resultCallback := _resultCallback l |}.

Definition setOnHold (duration : Core.TimeSpan) (l : Linker) : Linker :=
  {| _thresArrivalOffset := _thresArrivalOffset l;
     _thresResult := _thresResult l; _minArrivals := _minArrivals l;
     _onHold := duration; _status := _status l;
     _processors := _processors l; _queue := _queue l; _pot := _pot l;
     _potValid := _potValid l; _resultCallback := _resultCallback l |}.

Definition setResultCallback (callback : PublishResultCallback) (l : Linker)
  : Linker :=
  {| _thresArrivalOffset := _thresArrivalOffset l;
     _thresResult := _thresResult l; _minArrivals := _minArrivals l;
     _onHold := _onHold l; _status := _status l;
     _processors := _processors l; _queue := _queue l; _pot := _pot l;
     _potValid := _potValid l; _resultCallback := Some callback |}.

Definition setMinArrivals (n : option nat) (l : Linker) : Linker :=
  let v := match n with
           | Some k => if (k <? 1)%nat then None else Some k
           | None => None
           end in
  {| _thresArrivalOffset := _thresArrivalOffset l;
     _thresResult := _thresResult l; _minArrivals := v;
     _onHold := _onHold l; _status := _status l;
     _processors := _processors l; _queue := _queue l; _pot := _pot l;
     _potValid := _potValid l; _resultCallback := _resultCallback l |}.

Definition status (l : Linker) : Status := _status l.

Definition getAssociatedChannelCount (l : Linker) : nat :=
  let wfIds : gset string :=
    list_to_set ((fun p => waveformStreamId (pick (proc_arrival p)))
                   <$> values (_processors l)) in
  size wfIds.

Definition getProcessorCount (l : Linker) : nat := size (_processors l).

Definition add (p : option TemplateWaveformProcessor) (a : Arrival)
    (l : Linker) : Linker :=
  match p with
  | Some p =>
      with_processors
        (emplace (id p) {| proc := p; proc_arrival := a |} (_processors l))
        false l
  | None => l
  end.

Definition remove (procId : string) (l : Linker) : Linker :=
  with_processors (delete procId (_processors l)) false l.

Definition reset (l : Linker) : Linker :=
  with_queue [] (_pot l) false kWaitingForData l.

Definition emitResult (l : Linker) (res : Result) (w : World) : World :=
  match _resultCallback l with
  | Some callback => callback res w
  | None => w
  end.

Definition createPot (l : Linker) : Linker :=
  with_queue (_queue l) (POT_make (proc_arrival <$> values (_processors l)))
    true (_status l) l.

Definition Result_getArrivalCount (r : Result) : nat := size (results r).

Definition getArrivalCount (ev : Event) : nat := size (results (result ev)).

(** [Linker::Event::mergeResult] *)
Definition mergeResult (procId : string) (res : TemplateResult) (pt : POT)
    (ev : Event) : Event :=
  let templResults := emplace procId res (results (result ev)) in
  let fits := (fun p => coefficient (matchResult p)) <$> values templResults in
  let newRef :=
    match refPickTime ev with
    | None => true
    | Some t => time (pick (arrival res)) <? t
    end in
  {| expired := expired ev;
     refPickTime :=
       if newRef then Some (time (pick (arrival res))) else refPickTime ev;
     result :=
       {| results := templResults;
          refProcId := if newRef then procId else refProcId (result ev);
          fit := utils.cma fits;
          pot := pt |} |}.

(** The rule of [terminate] and of the sweep:
    [_minArrivals.value_or(getProcessorCount())] *)
Definition minArrivals_or_all (l : Linker) : nat :=
  default (getProcessorCount l) (_minArrivals l).

(** [!_thresResult || res.fit >= *_thresResult] *)
Definition surpassesThreshold (l : Linker) (r : Result) : bool :=
  match _thresResult l with
  | None => true
  | Some thres => leb thres (fit r)
  end.

(** The loop of [Linker::terminate], over the queue from its front. *)
Fixpoint terminate_loop (l : Linker) (q : list Event) (w : World) : World :=
  match q with
  | [] => w
  | event :: q' =>
      let w' :=
        if (minArrivals_or_all l <=? getArrivalCount event)%nat
           && surpassesThreshold l (result event)
        then emitResult l (result event) w
        else w in
      terminate_loop l q' w'
  end.

Definition terminate (l : Linker) (w : World) : Linker * World :=
  (with_queue [] (_pot l) (_potValid l) kTerminated l,
   terminate_loop l (_queue l) w).

(** The body of the loop "merge result into existing events" for one
    queued event: the reference POT and the event after the iteration. *)
Definition merge_body (l : Linker) (procId : string) (res : TemplateResult)
    (ref : POT) (ev : Event) : POT * Event :=
  if (getArrivalCount ev <? getProcessorCount l)%nat then
    let templResults := results (result ev) in
    let better :=
      match templResults !! procId with
      | None => true
      | Some old =>
          ltb (coefficient (matchResult old)) (coefficient (matchResult res))
      end in
    if better then
      let arrivals := arrival res :: (arrival <$> values templResults) in
      let wfIds : gset string :=
        list_to_set ((fun r => waveformStreamId (pick (arrival r)))
                       <$> values templResults) in
      let candidate := POT_make arrivals in
      match _thresArrivalOffset l with
      | Some thres =>
          (* prepare reference POT *)
          let ref1 := POT_disable wfIds ref in
          let '(ok, exceeded) := validatePickOffsets ref1 candidate thres in
          if negb ok || negb (bool_decide (exceeded = ∅))
          then (ref1, ev)   (* continue *)
          else (POT_enable ref1, mergeResult procId res candidate ev)
      | None => (POT_enable ref, mergeResult procId res candidate ev)
      end
    else (POT_enable ref, ev)
  else (ref, ev).

Fixpoint merge_loop (l : Linker) (procId : string) (res : TemplateResult)
    (ref : POT) (q : list Event) : POT * list Event :=
  match q with
  | [] => (ref, [])
  | ev :: q' =>
      let '(ref1, ev1) := merge_body l procId res ref ev in
      let '(ref2, q1) := merge_loop l procId res ref1 q' in
      (ref2, ev1 :: q1)
  end.

(** The event created for the result alone, on hold until [now + _onHold]. *)
Definition newEvent (l : Linker) (now : Core.Time) (procId : string)
    (res : TemplateResult) : Event :=
  mergeResult procId res (POT_make [arrival res])
    (Event_make (now + _onHold l)).

(** The condition under which the sweep hands an event to [emitResult]
    or drops it as ready. *)
Definition isReady (l : Linker) (now : Core.Time) (ev : Event) : bool :=
  (getArrivalCount ev =? getProcessorCount l)%nat
  || ((expired ev <=? now)
      && (minArrivals_or_all l <=? getArrivalCount ev)%nat).

(** The sweep over the queue: for every event whether its iterator is put
    into [ready], and the effect of the [emitResult] calls. *)
Fixpoint sweep (l : Linker) (now : Core.Time) (q : list Event) (w : World)
  : list bool * World :=
  match q with
  | [] => ([], w)
  | ev :: q' =>
      if isReady l now ev then
        (* emit results which are ready and surpass threshold *)
        let w1 := if surpassesThreshold l (result ev)
                  then emitResult l (result ev) w else w in
        let '(ready, w2) := sweep l now q' w1 in (true :: ready, w2)
      else if expired ev <=? now then
        (* drop expired result *)
        let '(ready, w2) := sweep l now q' w in (true :: ready, w2)
      else
        let '(ready, w2) := sweep l now q' w in (false :: ready, w2)
  end.

(** "clean up result queue": erase the events marked ready (the iterators
    collected in [ready] stay valid while the others are erased). *)
Fixpoint erase_ready (ready : list bool) (q : list Event) : list Event :=
  match ready, q with
  | true :: ready', _ :: q' => erase_ready ready' q'
  | false :: ready', ev :: q' => ev :: erase_ready ready' q'
  | _, _ => q
  end.

(** The linker as it is before the merge loop: the POT rebuilt if it is
    not valid, and fully enabled. *)
Definition preparePot (l : Linker) : Linker :=
  let l1 := if _potValid l then l else createPot l in
  with_queue (_queue l1) (POT_enable (_pot l1)) (_potValid l1) (_status l1) l1.

(** The queue once the new event is appended, and the reference POT at
    that point. *)
Definition queueBeforeSweep (l : Linker) (now : Core.Time) (procId : string)
    (res : TemplateResult) : POT * list Event :=
  let l1 := preparePot l in
  let '(ref, q) := merge_loop l1 procId res (_pot l1) (_queue l1) in
  (ref, q ++ [newEvent l1 now procId res]).

(** [Linker::process]; [now] is the value of [Core::Time::GMT()]. *)
Definition process (l : Linker) (now : Core.Time)
    (p : TemplateWaveformProcessor) (res : TemplateResult) (w : World)
  : Linker * World :=
  if bool_decide (_processors l = ∅) then (l, w)
  else
    let l1 := preparePot l in
    let '(ref, q) := queueBeforeSweep l now (id p) res in
    let '(ready, w1) := sweep l1 now q w in
    (with_queue (erase_ready ready q) ref (_potValid l1) (_status l1) l1, w1).

(** [Linker::feed]; null pointers are [None]. *)
Definition feed (l : Linker) (now : Core.Time)
    (p : option TemplateWaveformProcessor) (res : option MatchResult)
    (w : World) : Linker * World :=
  match p, res with
  | Some p, Some res =>
      if Status_as_integer (status l) <? Status_as_integer kTerminated then
        match _processors l !! id p with
        | None => (l, w)
        | Some linkerProc =>
            (* create a new arrival from a template arrival *)
            let newArrival := proc_arrival linkerProc in
            match templateStartTime (proc linkerProc) with
            | Some templateStart =>
                let pickOffset :=
                  time (pick (proc_arrival linkerProc)) - templateStart in
                let t := Core.startTime (timeWindow res)
                         + Core.TimeSpan_of_double (lag res) + pickOffset in
                process l now p
                  {| arrival := setPickTime t newArrival;
                     matchResult := res |} w
            | None => (l, w)
            end
        end
      else (l, w)
  | _, _ => (l, w)
  end.

End Linker.

End detector.

(** * The rules of the specification

    The conditions the specification states for emitting and dropping
    queued events, as decidable propositions. *)

Module rules.
Import detector.

Section Rules.
Context `{Core.Conversions} `{POTInterface} {World : Type}.
Implicit Types (l : @Linker _ World) (ev : Event) (now : Core.Time).

(** The effect of emitting the results [rs], first to last. *)
Definition emitAll l (rs : list Result) (w : World) : World :=
  foldl (fun w r => emitResult l r w) w rs.

(** The world once the callback set with [setResultCallback] has been
    called with the results [rs], first to last; while no callback is
    set, nothing is published. *)
Definition published l (rs : list Result) (w : World) : World :=
  match _resultCallback l with
  | Some callback => foldl (fun w r => callback r w) w rs
  | None => w
  end.

(** "arrivalCount == |processors|" *)
Definition fullyAssociated l ev : Prop :=
  getArrivalCount ev = getProcessorCount l.

(** "now >= deadline" *)
Definition pastDeadline now ev : Prop := expired ev <= now.

(** "arrivalCount >= minArrivals", an unset [minArrivals] standing for
    the number of registered processors *)
Definition enoughArrivals l ev : Prop :=
  match _minArrivals l with
  | Some n => (n <= getArrivalCount ev)%nat
  | None => (getProcessorCount l <= getArrivalCount ev)%nat
  end.

(** "fit >= resultThreshold", if that threshold is configured *)
Definition aboveThreshold l ev : Prop :=
  match _thresResult l with
  | Some thres => leb thres (fit (result ev)) = true
  | None => True
  end.

(** The events the sweep of [process] emits ... *)
Definition sweepEmits l now ev : Prop :=
  (fullyAssociated l ev \/ (pastDeadline now ev /\ enoughArrivals l ev))
  /\ aboveThreshold l ev.

(** ... and those it takes out of the queue. *)
Definition sweepRemoves l now ev : Prop :=
  fullyAssociated l ev \/ pastDeadline now ev.

(** The events [terminate] emits. *)
Definition flushEmits l ev : Prop :=
  enoughArrivals l ev /\ aboveThreshold l ev.

#[export] Instance enoughArrivals_dec l ev : Decision (enoughArrivals l ev).
Proof. unfold enoughArrivals. destruct (_minArrivals l); apply _. Defined.

#[export] Instance aboveThreshold_dec l ev : Decision (aboveThreshold l ev).
Proof. unfold aboveThreshold. destruct (_thresResult l); apply _. Defined.

#[export] Instance sweepEmits_dec l now ev : Decision (sweepEmits l now ev).
Proof. unfold sweepEmits, fullyAssociated, pastDeadline. apply _. Defined.

#[export] Instance sweepRemoves_dec l now ev : Decision (sweepRemoves l now ev).
Proof. unfold sweepRemoves, fullyAssociated, pastDeadline. apply _. Defined.

#[export] Instance flushEmits_dec l ev : Decision (flushEmits l ev).
Proof. unfold flushEmits. apply _. Defined.

(** The stream ids of the arrivals an event holds. *)
Definition streamsOf ev : gset string :=
  list_to_set ((fun r => waveformStreamId (pick (arrival r)))
                 <$> values (results (result ev))).

(** The stream ids of the registered template arrivals, one per processor. *)
Definition processorStreams l : list string :=
  (fun p => waveformStreamId (pick (proc_arrival p))) <$> values (_processors l).

(** The invariant the specification states for the reference processor:
    [refProcId] names a stored result whose pick time is the smallest
    among the stored results. *)
Definition pickTimeOf (r : TemplateResult) : Core.Time := time (pick (arrival r)).

Definition refIsEarliest ev : Prop :=
  exists r, results (result ev) !! refProcId (result ev) = Some r /\
    forall k r', results (result ev) !! k = Some r' -> pickTimeOf r <= pickTimeOf r'.

(** "fit = mean of participating coefficients" *)
Definition fitIsMean ev : Prop :=
  fit (result ev)
  = utils.cma ((fun r => coefficient (matchResult r))
                 <$> values (results (result ev))).

(** [refPickTime] is the pick time of the reference result, which is the
    earliest stored; an event without results has neither. *)
Definition refConsistent ev : Prop :=
  match refPickTime ev with
  | None => results (result ev) = ∅
  | Some t =>
      exists r, results (result ev) !! refProcId (result ev) = Some r /\
        pickTimeOf r = t /\
        forall k r', results (result ev) !! k = Some r' -> t <= pickTimeOf r'
  end.

End Rules.
End rules.

(** * Scenarios

    A linker over the reference conversions and the pick offset table
    modelled from the spec, whose result callback appends to a log. *)

Module scenario.
Import detector.

#[export] Instance conversions : Core.Conversions := Core.ref_conversions.
#[export] Instance pot_interface : POTInterface := SpecPOT.interface.

Definition Log : Type := list Result.

Definition logger : @PublishResultCallback _ Log := fun res w => w ++ [res].

Definition templateArrival (stream : string) (t : Core.Time) : Arrival :=
  {| pick := {| time := t; waveformStreamId := stream |}; phase := "Pg" |}.

(** Three template processors; their templates start at 0 s and carry
    picks at 1 s, 2 s and 3 s. *)
Definition procA : TemplateWaveformProcessor :=
  {| id := "A"; templateStartTime := Some 0 |}.
Definition procB : TemplateWaveformProcessor :=
  {| id := "B"; templateStartTime := Some 0 |}.
Definition procC : TemplateWaveformProcessor :=
  {| id := "C"; templateStartTime := Some 0 |}.

Definition arrivalA : Arrival := templateArrival "CH.A..HHZ" 1000000.
Definition arrivalB : Arrival := templateArrival "CH.B..HHZ" 2000000.
Definition arrivalC : Arrival := templateArrival "CH.C..HHZ" 3000000.

(** A match with the given coefficient (in percent) whose window starts
    at [start], with no lag. *)
Definition matchAt (percent : Z) (start : Core.Time) : MatchResult :=
  {| coefficient := div (of_Z percent) (of_Z 100); lag := of_Z 0;
     timeWindow := {| Core.startTime := start; Core.endTime := start + 3000000 |} |}.

(** A linker holding results for 10 s, with the default arrival offset
    threshold. *)
Definition linker0 : @Linker _ Log :=
  setResultCallback logger (Linker_make 10000000 config.lit_2em6).

Definition linkerAB : @Linker _ Log :=
  add (Some procB) arrivalB (add (Some procA) arrivalA linker0).

Definition linkerABC : @Linker _ Log :=
  add (Some procC) arrivalC linkerAB.

(** The template results [feed] builds from matches of processor A. *)
Definition resultA (percent : Z) (start : Core.Time) : TemplateResult :=
  {| arrival := setPickTime (start + 1000000) arrivalA;
     matchResult := matchAt percent start |}.

Definition resultB (percent : Z) (start : Core.Time) : TemplateResult :=
  {| arrival := setPickTime (start + 2000000) arrivalB;
     matchResult := matchAt percent start |}.

(** Two processors; a match of A with coefficient 0.5 is queued. *)
Definition queuedA : @Linker _ Log :=
  (feed linkerAB 100 (Some procA) (Some (matchAt 50 0)) []).1.

(** Three processors, no arrival offset threshold; A matches at 10 s
    (pick 11 s), then B matches at 8 s (pick 10 s). *)
Definition queuedAB : @Linker _ Log :=
  let l0 := setThresArrivalOffset None linkerABC in
  let l1 := (feed l0 100 (Some procA) (Some (matchAt 50 10000000)) []).1 in
  (feed l1 200 (Some procB) (Some (matchAt 50 8000000)) []).1.

(** Three processors, default threshold; a match of A is queued. *)
Definition queuedA3 : @Linker _ Log :=
  (feed linkerABC 100 (Some procA) (Some (matchAt 50 0)) []).1.

(** A second processor object with the id of A, and another arrival. *)
Definition procA' : TemplateWaveformProcessor :=
  {| id := "A"; templateStartTime := Some 500000 |}.
Definition arrivalA' : Arrival := templateArrival "CH.A..HHN" 9000000.

(** Processor C is removed while the events of A with B, and of B alone,
    are queued. *)
Definition flushed : @Linker _ Log := remove "C" queuedAB.

(** The same, with [minArrivals] set to 3 while three processors were
    registered. *)
Definition flushedStrict : @Linker _ Log :=
  remove "C" (setMinArrivals (Some 3%nat) queuedAB).
Definition eventAB : Event := hd (Event_make 0) (_queue flushed).
Definition eventB : Event := hd (Event_make 0) (tl (_queue flushed)).

(** The event at the front of the queue. *)
Definition frontEvent (l : @Linker _ Log) : Event :=
  hd (Event_make 0) (_queue l).

(** What an event stores for a processor: pick time and coefficient. *)
Definition storedFor (procId : string) (ev : Event) : option (Core.Time * double) :=
  (fun r => (time (pick (arrival r)), coefficient (matchResult r)))
    <$> results (result ev) !! procId.

(** The processors an event holds results of. *)
Definition members (ev : Event) : gset string := dom (results (result ev)).

(** The outcome of validating the candidate of [tr] and [ev] against the
    reference POT of [l], as the merge loop does for its first event. *)
Definition validation (l : @Linker _ Log) (tr : TemplateResult) (thres : double)
    (ev : Event) : bool * gset string :=
  validatePickOffsets
    (POT_disable (rules.streamsOf ev) (POT_enable (_pot l)))
    (POT_make (arrival tr :: (arrival <$> values (results (result ev)))))
    thres.

(** Three processors, default threshold; a match of A, then a match of B
    6 s later than the templates have it, are queued. *)
Definition queuedA3B3 : @Linker _ Log :=
  (feed queuedA3 200 (Some procB) (Some (matchAt 90 5000000)) []).1.

(** Two processors on the same stream. *)
Definition linkerShared : @Linker _ Log :=
  add (Some procB) (templateArrival "CH.A..HHZ" 2000000)
      (add (Some procA) arrivalA linker0).

End scenario.

(** * Queue invariants of the linker *)

Module invariants.
Import detector.

Section Invariants.
Context `{Core.Conversions} `{POTInterface} {World : Type}.
Implicit Types (l : @Linker _ World) (ev : Event).

(** An event holds at least one result, and only results of registered
    processors. *)
Definition wellFormedEvent l ev : Prop :=
  results (result ev) <> ∅ /\
  dom (results (result ev)) ⊆ dom (_processors l).

Definition wellFormedQueue l : Prop := Forall (wellFormedEvent l) (_queue l).

(** The events of the queue before and after the merge loop, pairwise. *)
Definition mergedFrom (procId : string) ev ev' : Prop :=
  expired ev' = expired ev /\
  (forall k old, results (result ev) !! k = Some old ->
                 results (result ev') !! k = Some old) /\
  dom (results (result ev')) ⊆ {[procId]} ∪ dom (results (result ev)) /\
  (getArrivalCount ev <= getArrivalCount ev' <= S (getArrivalCount ev))%nat.

End Invariants.
End invariants.

(** * Further scenarios *)

Module scenarioMore.
Import detector scenario.

(** A linker with the single processor A. *)
Definition linkerA : @Linker _ Log := add (Some procA) arrivalA linker0.

(** Two processors, nothing held: the on-hold time is zero. *)
Definition linkerAB_noHold : @Linker _ Log := setOnHold 0 linkerAB.

(** Two processors, nothing held, one arrival is enough. *)
Definition linkerAB_eager : @Linker _ Log :=
  setMinArrivals (Some 1%nat) linkerAB_noHold.

End scenarioMore.

(** * Writing a trace ([waveform.cpp]) *)

Module waveformMore.
Import Double waveform.

(** The outcome of a call whose loop is run with bounded fuel. *)
Inductive Run (A : Type) : Type :=
  | Returns (a : A)   (* the call returns [a] *)
  | Undefined         (* the behaviour is not defined by the language *)
  | OutOfFuel.        (* the loop is still running *)
Arguments Returns {A} a.
Arguments Undefined {A}.
Arguments OutOfFuel {A}.

(** [b <<= 1] on an [int]: the value is [2 * b] for a [b] that is not
    negative and whose double is an [int]; it is not defined otherwise. *)
Definition int_shl1 (b : Z) : option Z :=
  if (0 <=? b) && (2 * b <=? int_max) then Some (2 * b) else None.

(** [int * int]; signed overflow is undefined. *)
Definition int_mul (a b : Z) : option Z :=
  if (int_min <=? a * b) && (a * b <=? int_max) then Some (a * b) else None.

(** [while (b < a) { b <<= 1; if (b > max) return -1; } return b;] *)
Fixpoint NextPowerOfTwo_loop (fuel : nat) (a b max : Z) : Run Z :=
  match fuel with
  | O => OutOfFuel
  | S fuel =>
      if b <? a then
        match int_shl1 b with
        | None => Undefined
        | Some b' =>
            if max <? b' then Returns (-1)
            else NextPowerOfTwo_loop fuel a b' max
        end
      else Returns b
  end.

(** [NextPowerOfTwo<int>(a, min, max)], with [int b = min]. *)
Definition NextPowerOfTwo (fuel : nat) (a min max : Z) : Run Z :=
  NextPowerOfTwo_loop fuel a min max.

(** What the loop of [NextPowerOfTwo] returns when started at [b]. *)
Definition doubled (a b max r : Z) : Prop :=
  (a <= b /\ r = b) \/
  (b < a /\
   ((r = -1 /\ forall k : nat, a <= b * 2 ^ Z.of_nat k -> max < b * 2 ^ Z.of_nat k) \/
    (exists k : nat, (0 < k)%nat /\ r = b * 2 ^ Z.of_nat k /\
       a <= r /\ r <= max /\ r < 2 * a))).

(** [rec.data()->elementSize()]: the samples are doubles. *)
Definition elementSize : Z := 8.

(** [int rec_length = rec.data()->size() * rec.data()->elementSize() + 64;] *)
Definition Write_rec_length (trace : GenericRecord) : option Z :=
  bytes ← int_mul (size trace) elementSize;
  int_add bytes 64.

Section Write.

(** [rec.setOutputRecordLength(rec_length); rec.write(out);] is the
    miniSEED encoder of the library: [mseedWrite rec_length trace] is
    [false] where it throws. *)
Variable mseedWrite : Z -> GenericRecord -> bool.

(** [bool Write(const GenericRecord &trace, std::ostream &out)]: the
    returned flag. *)
Definition Write (fuel : nat) (trace : GenericRecord) : Run bool :=
  match Write_rec_length trace with
  | None => Undefined
  | Some rec_length =>
      (* MINRECLEN 128, MAXRECLEN 1048576 *)
      match NextPowerOfTwo fuel rec_length 128 1048576 with
      | Returns rec_length =>
          if rec_length <=? 0 then Returns false
          else Returns (mseedWrite rec_length trace)
      | Undefined => Undefined
      | OutOfFuel => OutOfFuel
      end
  end.

End Write.

(** An encoder that never throws. *)
Definition mseedWrite_ok (rec_length : Z) (trace : GenericRecord) : bool := true.

End waveformMore.

(** * Helpers on maps ([utils.h]) *)

Module maputils.
Section filter_keys.
Context {K : Type} `{Countable K} {V : Type}.

(** [filter_keys(m, p)]: the keys of the pairs that satisfy [p], in the
    order the map is iterated. *)
Definition filter_keys (m : gmap K V) (p : K * V -> bool) : list K :=
  (filter (fun pair => Is_true (p pair)) (map_to_list m)).*1.

End filter_keys.
End maputils.

(** * Waveform handlers and caches ([waveform.cpp])

    A [GenericRecordPtr] is the address of a record in a heap, so that
    two pointers to one record see each other's writes.  The filters,
    the resamplers, the validity of ids and windows, the text of a time
    and the hash of a configuration belong to libraries; they are the
    operations of the class [Library]. *)

Module handlers.
Import Double waveform.

(** [WaveformHandlerIface::ProcessingConfig] *)
Record ProcessingConfig : Type := {
  filter_string : string;
  filter_margin_time : double;
  target_frequency : double;
  demean : bool
}.

(** The exceptions thrown in [waveform.cpp]. *)
Inductive Exception : Type :=
  | InvalidStreamID    (* "Invalid waveform stream identifier." *)
  | OpenFailed         (* "Failed to open RecordStream: ..." *)
  | NoData             (* [WaveformHandler::NoData] *)
  | MergeFailed        (* "Failed to merge records into single trace ..." *)
  | FilteringFailed    (* "Filtering failed with filter ..." *)
  | IncompleteTrace.   (* "Incomplete trace; not enough data ..." *)

(** A double used as a condition: any value but a zero. *)
Definition nonzero (d : double) : bool := negb (SFeqb d (of_Z 0)).

(** [std::string::empty()] *)
Definition empty (s : string) : bool := String.eqb s "".

Definition setSamplingFrequency (f : double) (trace : GenericRecord) : GenericRecord :=
  {| streamID := streamID trace; startTime := startTime trace;
     samplingFrequency := f; data := data trace |}.

Class Library (Resamplers : Type) : Type := {
  (** [utils::CMA(data, n)] *)
  CMA : list double -> double;
  (** [Math::Filtering::InPlaceFilter<double>::Create(filter_string)]:
      [None] where no filter is created; otherwise what
      [setSamplingFrequency(f)] and [apply(n, data)] make of the samples *)
  createFilter : string -> option (double -> list double -> list double);
  (** [RecordResamplerStore::Instance().Get(&trace, f)->feed(&trace)]:
      the store after the call, and the start time and the samples of
      the resampled record, [None] for a null record *)
  feedResampler : GenericRecord -> double -> Resamplers ->
                  Resamplers * option (Core.Time * list double);
  (** [Core::TimeWindow::operator bool] *)
  TimeWindow_bool : Core.TimeWindow -> bool;
  (** [utils::WaveformStreamID{net, sta, loc, cha}.IsValid()] *)
  IsValid : string -> string -> string -> string -> bool;
  (** [Core::Time::iso()] *)
  iso : Core.Time -> string;
  (** [std::to_string(std::hash<ProcessingConfig>{}(config))] *)
  hashConfig : ProcessingConfig -> string
}.

(** The address of a record. *)
Definition ptr : Type := positive.

(** The records alive, the resamplers of the store, the state of the
    wrapped waveform handler, and [InMemoryCache::cache_]. *)
Record State {Resamplers Source : Type} : Type := {
  heap : gmap ptr GenericRecord;
  resamplers : Resamplers;
  source : Source;
  cache_ : gmap string (option ptr)
}.
Arguments State : clear implicits.

(** The interface of [Cached]: [Get(key)], [Set(key, value)] and
    [Exists(key)] are virtual. *)
Class Cached (S : Type) : Type := {
  Get_key : string -> S -> S * option ptr;
  Set_key : string -> option ptr -> S -> S * bool;
  Exists : string -> S -> bool
}.

Section Process.
Context `{Core.Conversions} {Resamplers : Type} `{!Library Resamplers}.

(** [void Demean(DoubleArray &data)]: [data -= mean] *)
Definition Demean_data (d : list double) : list double :=
  let mean := CMA d in (fun x => sub x mean) <$> d.

(** [void Demean(GenericRecord &trace)] *)
Definition Demean (trace : GenericRecord) : GenericRecord :=
  setData (Demean_data (data trace)) trace.

(** [bool Resample(GenericRecord &trace, double target_frequency)]: the
    store, the returned flag and the trace after the call. *)
Definition Resample (trace : GenericRecord) (target_frequency : double)
    (rs : Resamplers) : Resamplers * (bool * GenericRecord) :=
  if leb target_frequency (of_Z 0)
     || SFeqb (samplingFrequency trace) target_frequency
  then (rs, (true, trace))
  else
    match feedResampler trace target_frequency rs with
    | (rs', None) => (rs', (false, trace))
    | (rs', Some (start, samples)) =>
        (rs', (true, setData samples
                       (setSamplingFrequency target_frequency
                          (setStartTime start trace))))
    end.

(** [bool Filter(DoubleArray &data, const std::string &filter_string,
    double sampling_freq)]: the filtered samples, [None] where it returns
    false (the samples are then unchanged). *)
Definition Filter_data (d : list double) (filter_string : string)
    (sampling_freq : double) : option (list double) :=
  if empty filter_string || leb sampling_freq (of_Z 0) then None
  else
    filter ← createFilter filter_string;
    Some (filter sampling_freq d).

(** [bool Filter(GenericRecord &trace, const std::string &filter_string)] *)
Definition Filter (trace : GenericRecord) (filter_string : string)
  : option GenericRecord :=
  if empty filter_string then None
  else
    d ← Filter_data (data trace) filter_string (samplingFrequency trace);
    Some (setData d trace).

(** [WaveformHandlerIface::Process(trace, config, tw_trim)] on the record
    [trace] points to: the store and the record after the call, and the
    exception thrown, if any.  [None] where [Trim] is undefined. *)
Definition Process (trace : GenericRecord) (config : ProcessingConfig)
    (tw_trim : Core.TimeWindow) (rs : Resamplers)
  : option (Resamplers * GenericRecord * option Exception) :=
  let demeaned := if demean config then Demean trace else trace in
  let resampled :=
    if nonzero (target_frequency config)
    then
      let r := Resample demeaned (target_frequency config) rs in
      (r.1, r.2.2)
    else (rs, demeaned) in
  let filtered :=
    if negb (empty (filter_string config))
    then Filter resampled.2 (filter_string config)
    else Some resampled.2 in
  match filtered with
  | None => Some (resampled.1, resampled.2, Some FilteringFailed)
  | Some filtered =>
      if TimeWindow_bool tw_trim then
        match Trim filtered tw_trim with
        | None => None
        | Some (true, trimmed) => Some (resampled.1, trimmed, None)
        | Some (false, trimmed) =>
            Some (resampled.1, trimmed, Some IncompleteTrace)
        end
      else Some (resampled.1, filtered, None)
  end.

(** [Cached::MakeCacheKey]; [raw_] is [!CacheProcessed()]. *)
Definition MakeCacheKey (raw_ : bool) (net_code sta_code loc_code cha_code : string)
    (tw : Core.TimeWindow) (config : ProcessingConfig) : string :=
  let tw_with_margin :=
    if raw_ && negb (empty (filter_string config)) then
      let margin := Core.TimeSpan_of_double (filter_margin_time config) in
      {| Core.startTime := Core.startTime tw - margin;
         Core.endTime := Core.endTime tw + margin |}
    else tw in
  let key_components :=
    [net_code; sta_code; loc_code; cha_code;
     iso (Core.startTime tw_with_margin); iso (Core.endTime tw_with_margin)]
    ++ (if raw_ then [] else [hashConfig config]) in
  String.concat "." key_components.

(** The configuration and the window [Cached::Get] asks the wrapped
    handler with. *)
Definition disabled (config : ProcessingConfig) : ProcessingConfig :=
  {| filter_string := ""; filter_margin_time := filter_margin_time config;
     target_frequency := of_Z 0; demean := false |}.

Definition corrected (tw : Core.TimeWindow) (config : ProcessingConfig)
  : Core.TimeWindow :=
  if negb (empty (filter_string config)) then
    let margin := Core.TimeSpan_of_double (filter_margin_time config) in
    {| Core.startTime := Core.startTime tw - margin;
       Core.endTime := Core.endTime tw + margin |}
  else tw.

Section Cached.
Context {Source : Type}.
Implicit Types s : State Resamplers Source.

Definition with_heap (h : gmap ptr GenericRecord) s : State Resamplers Source :=
  {| heap := h; resamplers := resamplers s; source := source s;
     cache_ := cache_ s |}.

Definition with_resamplers (rs : Resamplers) s : State Resamplers Source :=
  {| heap := heap s; resamplers := rs; source := source s;
     cache_ := cache_ s |}.

Definition with_cache (c : gmap string (option ptr)) s : State Resamplers Source :=
  {| heap := heap s; resamplers := resamplers s; source := source s;
     cache_ := c |}.

(** [InMemoryCache::Get(key)], [Set(key, value)] and [Exists(key)] *)
Definition InMemoryCache_Get (key : string) s : State Resamplers Source * option ptr :=
  (s, match cache_ s !! key with
      | None => None
      | Some value => value
      end).

Definition InMemoryCache_Set (key : string) (value : option ptr) s
  : State Resamplers Source * bool :=
  (with_cache (<[key := value]> (cache_ s)) s, true).

Definition InMemoryCache_Exists (key : string) s : bool :=
  match cache_ s !! key with
  | None => false
  | Some _ => true
  end.

Definition InMemoryCache : Cached (State Resamplers Source) := {|
  Get_key := InMemoryCache_Get;
  Set_key := InMemoryCache_Set;
  Exists := InMemoryCache_Exists
|}.

(** [Process(const_cast<GenericRecord *>(trace.get()), config, tw)]: the
    record [trace] points to is processed in place.  [None] where a null
    or dangling pointer is dereferenced. *)
Definition Process_at (trace : option ptr) (config : ProcessingConfig)
    (tw : Core.TimeWindow) s : option (State Resamplers Source * option Exception) :=
  match trace with
  | None =>
      if demean config || nonzero (target_frequency config)
         || negb (empty (filter_string config)) || TimeWindow_bool tw
      then None
      else Some (s, None)
  | Some p =>
      record ← heap s !! p;
      done ← Process record config tw (resamplers s);
      Some (with_heap (<[p := done.1.2]> (heap s))
              (with_resamplers done.1.1 s), done.2)
  end.

(** [utils::make_smart<const GenericRecord>] of the record [trace]
    points to: a copy of the record at a fresh address. *)
Definition make_smart (trace : option ptr) s : option (State Resamplers Source * ptr) :=
  p ← trace;
  record ← heap s !! p;
  let copy := fresh (dom (heap s)) in
  Some (with_heap (<[copy := record]> (heap s)) s, copy).

Context (cache : Cached (State Resamplers Source)).

(** [waveform_handler_->Get(net, sta, loc, cha, tw, config)]: the record
    returned (possibly null) or the exception thrown. *)
Variable handler_Get :
  string -> string -> string -> string -> Core.TimeWindow -> ProcessingConfig ->
  State Resamplers Source ->
  State Resamplers Source * (Exception + option ptr).

(** [Cached::Get(net_code, sta_code, loc_code, cha_code, tw, config)] *)
Definition Cached_Get (raw_ : bool) (net_code sta_code loc_code cha_code : string)
    (tw : Core.TimeWindow) (config : ProcessingConfig) s
  : option (State Resamplers Source * (Exception + option ptr)) :=
  if negb (IsValid net_code sta_code loc_code cha_code)
  then Some (s, inl InvalidStreamID)
  else
    let cache_key :=
      MakeCacheKey raw_ net_code sta_code loc_code cha_code tw config in
    let got := Get_key cache_key s in
    match got.2 with
    | Some p =>
        (* cached *)
        done ← Process_at (Some p) config tw got.1;
        Some (done.1, match done.2 with
                      | Some e => inl e
                      | None => inr (Some p)
                      end)
    | None =>
        let fetched :=
          handler_Get net_code sta_code loc_code cha_code
            (corrected tw config) (disabled config) got.1 in
        match fetched.2 with
        | inl e => Some (fetched.1, inl e)
        | inr trace =>
            if raw_ then
              (* cache the raw data, process a copy *)
              let stored := (Set_key cache_key trace fetched.1).1 in
              copied ← make_smart trace stored;
              done ← Process_at (Some copied.2) config tw copied.1;
              Some (done.1, match done.2 with
                            | Some e => inl e
                            | None => inr (Some copied.2)
                            end)
            else
              done ← Process_at trace config tw fetched.1;
              match done.2 with
              | Some e => Some (done.1, inl e)
              | None =>
                  (* cache processed data *)
                  Some ((Set_key cache_key trace done.1).1, inr trace)
              end
        end
    end.

End Cached.
End Process.

End handlers.

(** * A cache in front of a handler that serves one trace *)

Module handlersScenario.
Import Double waveform handlers scenario.

(** A library with a single filter, "GAIN2", that doubles every sample,
    and without resamplers; a window is valid when both ends are set. *)
#[export] Instance lib : Library unit := {|
  CMA := detector.utils.cma;
  createFilter := fun filter_string =>
    if String.eqb filter_string "GAIN2"
    then Some (fun _ d => mul (of_Z 2) <$> d)
    else None;
  feedResampler := fun _ _ rs => (rs, None);
  TimeWindow_bool := fun tw =>
    negb (Core.startTime tw =? 0) && negb (Core.endTime tw =? 0);
  IsValid := fun net_code sta_code loc_code cha_code =>
    negb (empty net_code) && negb (empty sta_code) && negb (empty cha_code);
  iso := fun t => pretty.pretty t;
  hashConfig := fun config => filter_string config
|}.

(** A handler that serves the trace of eight samples, whatever is asked. *)
Definition fetch (net_code sta_code loc_code cha_code : string)
    (tw : Core.TimeWindow) (config : ProcessingConfig) (s : State unit unit)
  : State unit unit * (Exception + option ptr) :=
  let p := fresh (dom (heap s)) in
  (with_heap (<[p := trace8]> (heap s)) s, inr (Some p)).

Definition s0 : State unit unit :=
  {| heap := ∅; resamplers := tt; source := tt; cache_ := ∅ |}.

Definition gain : ProcessingConfig :=
  {| filter_string := "GAIN2"; filter_margin_time := of_Z 0;
     target_frequency := of_Z 0; demean := false |}.

Definition gain_demeaned : ProcessingConfig :=
  {| filter_string := "GAIN2"; filter_margin_time := of_Z 0;
     target_frequency := of_Z 0; demean := true |}.

(** The windows [0.5 s, 1.5 s) and [1.5 s, 2.5 s). *)
Definition window : Core.TimeWindow :=
  {| Core.startTime := 500000; Core.endTime := 1500000 |}.



Definition trace8_once : GenericRecord :=
  setData (of_Z <$> [24; 26; 28; 30]) trace8_trimmed.

Definition trace8_twice : GenericRecord :=
  setData (of_Z <$> [48; 52; 56; 60]) trace8_trimmed.

Definition trace8_demeaned : GenericRecord :=
  setData (of_Z <$> [-3; -1; 1; 3]) trace8_trimmed.

End handlersScenario.

(** * Facts about binary64 comparison *)

Module DoubleFacts.
Import Double.

Lemma digits2_pos_bounds (m : positive) :
  2 ^ (Z.pos (digits2_pos m) - 1) <= Z.pos m < 2 ^ Z.pos (digits2_pos m).
Proof.
  induction m as [p IH | p IH |]; cbn [digits2_pos].
  - rewrite Pos2Z.inj_succ.
    replace (Z.succ (Z.pos (digits2_pos p)) - 1)
      with (Z.succ (Z.pos (digits2_pos p) - 1)) by lia.
    rewrite !Z.pow_succ_r by lia. lia.
  - rewrite Pos2Z.inj_succ.
    replace (Z.succ (Z.pos (digits2_pos p)) - 1)
      with (Z.succ (Z.pos (digits2_pos p) - 1)) by lia.
    rewrite !Z.pow_succ_r by lia. lia.
  - cbn. lia.
Qed.

Lemma valid_finite_inv (s : bool) (m : positive) (e : Z) :
  valid (S754_finite s m e) ->
  - shift <= e <= emax - prec /\
  Z.pos (digits2_pos m) <= prec /\
  (- shift < e -> Z.pos (digits2_pos m) = prec).
Proof.
  unfold valid, valid_binary, bounded, canonical_mantissa, fexp, SpecFloat.emin,
    shift, emax, prec.
  intros H. apply andb_prop in H as [H1 H2].
  apply Z.eqb_eq in H1. apply Z.leb_le in H2. lia.
Qed.

(** Mantissa bounds of a valid finite double, scaled to a common exponent. *)
Lemma valid_scaled_bounds (s : bool) (m : positive) (e : Z) :
  valid (S754_finite s m e) ->
  0 < Z.pos m * 2 ^ (e + shift) < 2 ^ (e + shift + prec) /\
  (- shift < e -> 2 ^ (e + shift + prec - 1) <= Z.pos m * 2 ^ (e + shift)).
Proof.
  intros Hv. destruct (valid_finite_inv _ _ _ Hv) as (He & Hd & Hn).
  pose proof (digits2_pos_bounds m) as [Hlo Hhi].
  assert (Hp : 0 < 2 ^ (e + shift)) by (apply Z.pow_pos_nonneg; lia).
  assert (Hm : Z.pos m < 2 ^ prec).
  { eapply Z.lt_le_trans; [exact Hhi|]. apply Z.pow_le_mono_r; lia. }
  split; [split|].
  - lia.
  - rewrite (Z.pow_add_r 2 (e + shift) prec) by (unfold prec; lia).
    rewrite (Z.mul_comm (2 ^ (e + shift))). apply Z.mul_lt_mono_pos_r; lia.
  - intros Hlt. rewrite (Hn Hlt) in Hlo.
    replace (e + shift + prec - 1) with ((prec - 1) + (e + shift)) by lia.
    rewrite Z.pow_add_r by (unfold prec; lia).
    apply Z.mul_le_mono_nonneg_r; lia.
Qed.

Lemma scaled_mono_exp (s1 s2 : bool) (m1 m2 : positive) (e1 e2 : Z) :
  valid (S754_finite s1 m1 e1) -> valid (S754_finite s2 m2 e2) ->
  e1 < e2 ->
  Z.pos m1 * 2 ^ (e1 + shift) < Z.pos m2 * 2 ^ (e2 + shift).
Proof.
  intros H1 H2 Hlt.
  destruct (valid_finite_inv _ _ _ H1) as (He1 & _).
  destruct (valid_scaled_bounds _ _ _ H1) as ((_ & Hhi) & _).
  destruct (valid_scaled_bounds _ _ _ H2) as (_ & Hlo).
  specialize (Hlo ltac:(lia)).
  eapply Z.lt_le_trans; [exact Hhi|].
  eapply Z.le_trans; [|exact Hlo].
  apply Z.pow_le_mono_r; lia.
Qed.

(** [SFcompare] orders valid doubles by their real value. *)
Lemma SFcompare_value (x y : double) :
  valid x -> valid y -> SFcompare x y = value_compare x y.
Proof.
  intros Hx Hy.
  destruct x as [sx | sx | | sx mx ex], y as [sy | sy | | sy my ey];
    try reflexivity; cbn [SFcompare value_compare scaled].
  - (* zero, finite *)
    destruct (valid_scaled_bounds _ _ _ Hy) as ((Hpos & _) & _).
    f_equal. destruct sy; cbn [cond_Zopp]; symmetry.
    + apply Z.compare_gt_iff. lia.
    + apply Z.compare_lt_iff. lia.
  - (* finite, zero *)
    destruct (valid_scaled_bounds _ _ _ Hx) as ((Hpos & _) & _).
    f_equal. destruct sx; cbn [cond_Zopp]; symmetry.
    + apply Z.compare_lt_iff. lia.
    + apply Z.compare_gt_iff. lia.
  - (* finite, finite *)
    destruct (valid_scaled_bounds _ _ _ Hx) as ((Hpx & _) & _).
    destruct (valid_scaled_bounds _ _ _ Hy) as ((Hpy & _) & _).
    assert (Hexp : ex < ey ->
      Z.pos mx * 2 ^ (ex + shift) < Z.pos my * 2 ^ (ey + shift))
      by (apply (scaled_mono_exp sx sy); assumption).
    assert (Hexp' : ey < ex ->
      Z.pos my * 2 ^ (ey + shift) < Z.pos mx * 2 ^ (ex + shift))
      by (apply (scaled_mono_exp sy sx); assumption).
    assert (Hman : ex = ey -> (mx < my)%positive ->
      Z.pos mx * 2 ^ (ex + shift) < Z.pos my * 2 ^ (ey + shift)).
    { intros -> Hlt. apply Z.mul_lt_mono_pos_r; lia. }
    assert (Hman' : ex = ey -> (my < mx)%positive ->
      Z.pos my * 2 ^ (ey + shift) < Z.pos mx * 2 ^ (ex + shift)).
    { intros -> Hlt. apply Z.mul_lt_mono_pos_r; lia. }
    f_equal. change (Pos.compare_cont Eq mx my) with (Pos.compare mx my).
    destruct sx, sy; cbn [cond_Zopp]; symmetry;
      destruct (Z.compare_spec ex ey) as [Heq | Hlt | Hgt];
      try destruct (Pos.compare_spec mx my) as [Hm | Hm | Hm];
      cbn [CompOpp];
      try (subst; apply Z.compare_eq_iff; reflexivity);
      try (apply Z.compare_lt_iff; lia);
      try (apply Z.compare_gt_iff; lia).
Qed.

Lemma SF2Q_le (x y : double) : (SF2Q x <= SF2Q y)%Q <-> scaled x <= scaled y.
Proof.
  unfold SF2Q, Qle; cbn [Qnum Qden]. symmetry.
  apply Z.mul_le_mono_pos_r. reflexivity.
Qed.

Lemma SF2Q_lt (x y : double) : (SF2Q x < SF2Q y)%Q <-> scaled x < scaled y.
Proof.
  unfold SF2Q, Qlt; cbn [Qnum Qden]. symmetry.
  apply Z.mul_lt_mono_pos_r. reflexivity.
Qed.

(** [x <= y] on doubles is [<=] on their values; a NaN compares false. *)
Lemma leb_spec (x y : double) :
  valid x -> valid y ->
  (leb x y = true <->
   exists a b, value x = Some a /\ value y = Some b /\ xle a b).
Proof.
  intros Hx Hy. unfold leb, SFleb. rewrite (SFcompare_value x y Hx Hy).
  assert (Hfin : (match scaled x ?= scaled y with Gt => false | _ => true end
                  = true) <-> (SF2Q x <= SF2Q y)%Q).
  { rewrite SF2Q_le.
    destruct (Z.compare_spec (scaled x) (scaled y)); split; intros; try lia;
      try reflexivity; discriminate. }
  destruct x as [sx | [] | | sx mx ex], y as [sy | [] | | sy my ey];
    cbn [value_compare value xle]; try apply Hfin;
    (split;
     [ intros Hc; try discriminate Hc;
       try (eexists _, _; repeat split; try reflexivity; try exact I;
            cbn [xle]; try (apply Hfin; exact Hc); fail)
     | intros (a & b & Ha & Hb & Hle); try discriminate Ha;
       try discriminate Hb; try reflexivity;
       try (injection Ha as <-; injection Hb as <-; cbn [xle] in Hle;
            first [ contradiction | apply Hfin; exact Hle ]) ]).
Qed.

(** [x < y] on doubles is [<] on their values; a NaN compares false. *)
Lemma ltb_spec (x y : double) :
  valid x -> valid y ->
  (ltb x y = true <->
   exists a b, value x = Some a /\ value y = Some b /\ xlt a b).
Proof.
  intros Hx Hy. unfold ltb, SFltb. rewrite (SFcompare_value x y Hx Hy).
  assert (Hfin : (match scaled x ?= scaled y with Lt => true | _ => false end
                  = true) <-> (SF2Q x < SF2Q y)%Q).
  { rewrite SF2Q_lt.
    destruct (Z.compare_spec (scaled x) (scaled y)); split; intros; try lia;
      try reflexivity; discriminate. }
  destruct x as [sx | [] | | sx mx ex], y as [sy | [] | | sy my ey];
    cbn [value_compare value xlt]; try apply Hfin;
    (split;
     [ intros Hc; try discriminate Hc;
       try (eexists _, _; repeat split; try reflexivity; try exact I;
            cbn [xlt]; try (apply Hfin; exact Hc); fail)
     | intros (a & b & Ha & Hb & Hle); try discriminate Ha;
       try discriminate Hb; try reflexivity;
       try (injection Ha as <-; injection Hb as <-; cbn [xlt] in Hle;
            first [ contradiction | apply Hfin; exact Hle ]) ]).
Qed.

End DoubleFacts.

(** * Threshold validators *)

Module configFacts.
Import Double DoubleFacts.

Lemma value_minus_one : value (of_Z (-1)) = Some (Num (SF2Q (of_Z (-1)))).
Proof. reflexivity. Qed.

Lemma SF2Q_minus_one : (SF2Q (of_Z (-1)) == -1)%Q.
Proof. vm_compute. reflexivity. Qed.

Lemma SF2Q_one : (SF2Q (of_Z 1) == 1)%Q.
Proof. vm_compute. reflexivity. Qed.

Lemma SF2Q_zero : (SF2Q (of_Z 0) == 0)%Q.
Proof. vm_compute. reflexivity. Qed.

(** The literal [2.0e-6] is the correctly rounded quotient 2 / 10^6 ... *)
Lemma lit_2em6_rounded : config.lit_2em6 = div (of_Z 2) (of_Z 1000000).
Proof. vm_compute. reflexivity. Qed.

(** ... a valid double within half a unit in the last place (2^-72) of the
    decimal 0.000002. *)
Lemma lit_2em6_nearest :
  valid config.lit_2em6 /\
  ((2 # 1000000) - (1 # (2 ^ 72)) <= SF2Q config.lit_2em6)%Q /\
  (SF2Q config.lit_2em6 <= (2 # 1000000) + (1 # (2 ^ 72)))%Q.
Proof. split; [reflexivity|]. split; vm_compute; discriminate. Qed.

Lemma xle_Num_l (p q : Q) (v : xreal) : (p == q)%Q -> xle (Num p) v <-> xle (Num q) v.
Proof. intros E. destruct v; cbn [xle]; try tauto. now rewrite E. Qed.

Lemma xle_Num_r (p q : Q) (v : xreal) : (p == q)%Q -> xle v (Num p) <-> xle v (Num q).
Proof. intros E. destruct v; cbn [xle]; try tauto. now rewrite E. Qed.

Lemma xlt_Num_r (p q : Q) (v : xreal) : (p == q)%Q -> xlt v (Num p) <-> xlt v (Num q).
Proof. intros E. destruct v; cbn [xlt]; try tauto. now rewrite E. Qed.

(** C9. For every binary64 value, config-time threshold validation accepts
    an xcorrThreshold exactly when its value lies in [-1, 1], and an
    arrivalOffsetThreshold exactly when its value is negative or at least
    the double [2.0e-6]; a NaN is accepted by neither. *)
Theorem threshold_validators_spec (thres : double) :
  valid thres ->
  (config.ValidateXCorrThreshold thres = true <->
   exists v, value thres = Some v /\ xle (Num (-1)) v /\ xle v (Num 1)) /\
  (config.ValidateArrivalOffsetThreshold thres = true <->
   exists v, value thres = Some v /\
             (xlt v (Num 0) \/ xle (Num (SF2Q config.lit_2em6)) v)).
Proof.
  intros Hv.
  assert (Hm1 : valid (of_Z (-1))) by reflexivity.
  assert (H1 : valid (of_Z 1)) by reflexivity.
  assert (H0 : valid (of_Z 0)) by reflexivity.
  assert (Hl : valid config.lit_2em6) by reflexivity.
  split.
  - unfold config.ValidateXCorrThreshold. rewrite andb_true_iff.
    rewrite (leb_spec _ _ Hm1 Hv), (leb_spec _ _ Hv H1). split.
    + intros [(a & v & Ha & Hvv & Hle1) (v' & b & Hvv' & Hb & Hle2)].
      rewrite Hvv in Hvv'. injection Hvv' as <-.
      injection Ha as <-. injection Hb as <-.
      exists v. split; [exact Hvv|]. split.
      * apply (xle_Num_l _ _ v SF2Q_minus_one). exact Hle1.
      * apply (xle_Num_r _ _ v SF2Q_one). exact Hle2.
    + intros (v & Hvv & Hle1 & Hle2). split.
      * exists (Num (SF2Q (of_Z (-1)))), v. repeat split; [exact Hvv|].
        apply (xle_Num_l _ _ v SF2Q_minus_one). exact Hle1.
      * exists v, (Num (SF2Q (of_Z 1))). repeat split; [exact Hvv|].
        apply (xle_Num_r _ _ v SF2Q_one). exact Hle2.
  - unfold config.ValidateArrivalOffsetThreshold. rewrite orb_true_iff.
    rewrite (ltb_spec _ _ Hv H0), (leb_spec _ _ Hl Hv). split.
    + intros [(v & b & Hvv & Hb & Hlt) | (a & v & Ha & Hvv & Hle)].
      * injection Hb as <-. exists v. split; [exact Hvv|]. left.
        apply (xlt_Num_r _ _ v SF2Q_zero). exact Hlt.
      * injection Ha as <-. exists v. split; [exact Hvv|]. right. exact Hle.
    + intros (v & Hvv & [Hlt | Hle]).
      * left. exists v, (Num (SF2Q (of_Z 0))). repeat split; [exact Hvv|].
        apply (xlt_Num_r _ _ v SF2Q_zero). exact Hlt.
      * right. exists (Num (SF2Q config.lit_2em6)), v.
        repeat split; [exact Hvv|exact Hle].
Qed.

(** The theorem at the threshold [1.0]. *)
Lemma threshold_validators_witness :
  valid (of_Z 1) /\
  (config.ValidateXCorrThreshold (of_Z 1) = true <->
   exists v, value (of_Z 1) = Some v /\ xle (Num (-1)) v /\ xle v (Num 1)) /\
  (config.ValidateArrivalOffsetThreshold (of_Z 1) = true <->
   exists v, value (of_Z 1) = Some v /\
             (xlt v (Num 0) \/ xle (Num (SF2Q config.lit_2em6)) v)).
Proof.
  split; [reflexivity|].
  apply (threshold_validators_spec (of_Z 1)). reflexivity.
Defined.

(** Boundary values of the two validators. *)
Example validators_boundaries :
  config.ValidateXCorrThreshold (of_Z 1) = true /\
  config.ValidateXCorrThreshold (of_Z (-1)) = true /\
  config.ValidateXCorrThreshold (of_Z 2) = false /\
  config.ValidateXCorrThreshold S754_nan = false /\
  config.ValidateArrivalOffsetThreshold config.lit_2em6 = true /\
  config.ValidateArrivalOffsetThreshold (of_Z (-1)) = true /\
  config.ValidateArrivalOffsetThreshold (of_Z 0) = false /\
  config.ValidateArrivalOffsetThreshold (S754_zero true) = false /\
  config.ValidateArrivalOffsetThreshold
    (S754_finite false 4722366482869644 (-71)) = false /\
  config.ValidateArrivalOffsetThreshold S754_nan = false.
Proof. repeat split. Qed.

End configFacts.

(** * Trimming a trace *)

Module waveformFacts.
Import Double waveform.

Section Trim.
Context `{Core.Conversions}.

Lemma Trim_unfold (trace : GenericRecord) (tw : Core.TimeWindow) :
  Trim trace tw =
  offset ← Trim_offset trace tw;
  samples ← Trim_samples trace tw;
  if offset <? 0 then Some (false, trace)
  else
    last ← int_add offset samples;
    if size trace <? last then Some (false, trace)
    else
      Some (true,
            {| streamID := streamID trace;
               startTime := startTime trace +
                 Core.TimeSpan_of_double
                   (div (of_Z offset) (samplingFrequency trace));
               samplingFrequency := samplingFrequency trace;
               data := slice offset last (data trace) |}).
Proof. reflexivity. Qed.

Lemma int_add_Some (a b c : Z) : int_add a b = Some c -> c = a + b.
Proof.
  unfold int_add. destruct (_ && _); [|discriminate]. now intros [= <-].
Qed.

(** [Trim] is defined as soon as the conversions to [int] are and the last
    sample index does not overflow. *)
Lemma Trim_defined (trace : GenericRecord) (tw : Core.TimeWindow) (offset samples : Z) :
  Trim_offset trace tw = Some offset ->
  Trim_samples trace tw = Some samples ->
  offset + samples <= int_max ->
  exists r trace', Trim trace tw = Some (r, trace').
Proof.
  intros Ho Hs Hsum. rewrite Trim_unfold, Ho, Hs. cbn [mbind option_bind].
  destruct (offset <? 0) eqn:Hneg; [eauto|].
  apply Z.ltb_ge in Hneg.
  assert (Hrs : int_min <= samples).
  { unfold Trim_samples, to_int in Hs.
    destruct (trunc _) as [z|]; [|discriminate].
    destruct (int_min <=? z) eqn:E; cbn in Hs; [|discriminate].
    destruct (z <=? int_max); [|discriminate].
    injection Hs as <-. now apply Z.leb_le in E. }
  unfold int_add.
  replace (int_min <=? offset + samples) with true
    by (symmetry; apply Z.leb_le; lia).
  replace (offset + samples <=? int_max) with true
    by (symmetry; apply Z.leb_le; lia).
  cbn [andb mbind option_bind]. destruct (size trace <? _); eauto.
Qed.


End Trim.

(** The window [0.5 s, 1.5 s) is inside the trace ... *)
Example Trim_inside :
  @Trim Core.ref_conversions trace8
        {| Core.startTime := 500000; Core.endTime := 1500000 |}
  = Some (true, trace8_trimmed).
Proof. vm_compute. reflexivity. Qed.

(** ... the window [-0.5 s, 0.5 s) needs two samples in the past, and
    [1.5 s, 2.5 s) two samples past the end. *)
Example Trim_outside :
  @Trim Core.ref_conversions trace8
        {| Core.startTime := -500000; Core.endTime := 500000 |}
    = Some (false, trace8) /\
  @Trim Core.ref_conversions trace8
        {| Core.startTime := 1500000; Core.endTime := 2500000 |}
    = Some (false, trace8).
Proof. split; vm_compute; reflexivity. Qed.



End waveformFacts.

(** * The linker *)

Module linkerFacts.
Import Double detector rules.

(** ** Counting distinct stream ids *)

Lemma size_list_to_set_le (ids : list string) :
  (size (list_to_set ids : gset string) <= List.length ids)%nat.
Proof.
  induction ids as [|x ids IH]; [rewrite list_to_set_nil, size_empty; lia|].
  rewrite list_to_set_cons, size_union_alt, size_singleton. cbn [List.length].
  assert (size ((list_to_set ids : gset string) ∖ {[x]})
          <= size (list_to_set ids : gset string))%nat
    by (apply subseteq_size, subseteq_difference_l; reflexivity).
  lia.
Qed.

Lemma size_list_to_set_NoDup (ids : list string) :
  size (list_to_set ids : gset string) = List.length ids <-> NoDup ids.
Proof.
  split; [|apply size_list_to_set].
  induction ids as [|x ids IH]; intros Hsz; [constructor|].
  rewrite list_to_set_cons in Hsz. cbn [List.length] in Hsz.
  pose proof (size_list_to_set_le ids) as Hle.
  destruct (decide (x ∈ ids)) as [Hin | Hnin].
  - exfalso.
    assert (Heq : ({[x]} ∪ list_to_set ids : gset string) = list_to_set ids)
      by (apply subseteq_union_1_L, singleton_subseteq_l, elem_of_list_to_set;
          exact Hin).
    rewrite Heq in Hsz. lia.
  - constructor; [exact Hnin|]. apply IH.
    rewrite size_union, size_singleton in Hsz
      by (apply disjoint_singleton_l, not_elem_of_list_to_set; exact Hnin).
    lia.
Qed.

Section Linker.
Context `{Core.Conversions} `{POTInterface} {World : Type}.
Implicit Types (l : @Linker _ World) (ev : Event) (now : Core.Time)
  (q : list Event) (w : World).

(** ** Reading the boolean tests *)

Lemma minArrivals_or_all_le l ev :
  (minArrivals_or_all l <=? getArrivalCount ev)%nat = true <-> enoughArrivals l ev.
Proof.
  unfold minArrivals_or_all, enoughArrivals.
  destruct (_minArrivals l); cbn [default]; apply Nat.leb_le.
Qed.

Lemma surpassesThreshold_true l ev :
  surpassesThreshold l (result ev) = true <-> aboveThreshold l ev.
Proof.
  unfold surpassesThreshold, aboveThreshold.
  destruct (_thresResult l); [reflexivity | tauto].
Qed.

Lemma isReady_true l now ev :
  isReady l now ev = true <->
  fullyAssociated l ev \/ (pastDeadline now ev /\ enoughArrivals l ev).
Proof.
  unfold isReady, fullyAssociated, pastDeadline.
  rewrite orb_true_iff, andb_true_iff, Nat.eqb_eq, Z.leb_le,
    minArrivals_or_all_le. reflexivity.
Qed.

Lemma emitAll_cons l (r : Result) (rs : list Result) w :
  emitAll l (r :: rs) w = emitAll l rs (emitResult l r w).
Proof. reflexivity. Qed.

(** [emitResult] calls the callback, if one is set, and does nothing
    else. *)
Lemma emitAll_published l (rs : list Result) w :
  emitAll l rs w = published l rs w.
Proof.
  unfold emitAll, published, emitResult.
  destruct (_resultCallback l) as [callback|]; [reflexivity|].
  induction rs as [|r rs IH]; [reflexivity | exact IH].
Qed.

(** ** The sweep of [process] *)

Lemma sweep_spec l now q w :
  (sweep l now q w).2
    = emitAll l (result <$> filter (sweepEmits l now) q) w /\
  erase_ready (sweep l now q w).1 q
    = filter (fun ev => ~ sweepRemoves l now ev) q.
Proof.
  revert w. induction q as [|ev q IH]; intros w; [split; reflexivity|].
  cbn [sweep].
  destruct (isReady l now ev) eqn:Hready.
  - apply isReady_true in Hready.
    assert (Hrem : sweepRemoves l now ev).
    { unfold sweepRemoves. tauto. }
    destruct (surpassesThreshold l (result ev)) eqn:Hthr.
    + apply surpassesThreshold_true in Hthr.
      destruct (IH (emitResult l (result ev) w)) as [IHw IHq].
      destruct (sweep l now q (emitResult l (result ev) w)) as [ready w2].
      cbn [fst snd erase_ready] in *.
      rewrite (filter_cons_True (sweepEmits l now)) by (split; assumption).
      rewrite filter_cons_False by tauto.
      rewrite fmap_cons, emitAll_cons. split; assumption.
    + assert (Hno : ~ sweepEmits l now ev).
      { intros [_ Habove]. apply surpassesThreshold_true in Habove. congruence. }
      destruct (IH w) as [IHw IHq].
      destruct (sweep l now q w) as [ready w2].
      cbn [fst snd erase_ready] in *.
      rewrite (filter_cons_False (sweepEmits l now)) by assumption.
      rewrite filter_cons_False by tauto.
      split; assumption.
  - assert (Hnr : ~ (fullyAssociated l ev \/ (pastDeadline now ev /\ enoughArrivals l ev))).
    { intros Hr. apply isReady_true in Hr. congruence. }
    assert (Hno : ~ sweepEmits l now ev) by (intros [Hr _]; tauto).
    destruct (IH w) as [IHw IHq].
    destruct (expired ev <=? now) eqn:Hexp;
      destruct (sweep l now q w) as [ready w2];
      cbn [fst snd erase_ready] in *;
      rewrite (filter_cons_False (sweepEmits l now)) by assumption.
    + apply Z.leb_le in Hexp.
      rewrite filter_cons_False by (unfold sweepRemoves, pastDeadline; tauto).
      split; assumption.
    + apply Z.leb_gt in Hexp.
      rewrite filter_cons_True
        by (unfold sweepRemoves, pastDeadline in *; intros [?|?]; [tauto|lia]).
      split; [assumption | f_equal; assumption].
Qed.

(** The sweep reads the thresholds, the processors and the callback only. *)
Lemma sweep_ext l1 l2 now q w :
  _minArrivals l1 = _minArrivals l2 -> _thresResult l1 = _thresResult l2 ->
  _processors l1 = _processors l2 -> _resultCallback l1 = _resultCallback l2 ->
  sweep l1 now q w = sweep l2 now q w.
Proof.
  intros Hm Ht Hp Hc. revert w. induction q as [|ev q IH]; intros w; [reflexivity|].
  cbn [sweep].
  assert (Hr : isReady l1 now ev = isReady l2 now ev).
  { unfold isReady, minArrivals_or_all, getProcessorCount. now rewrite Hm, Hp. }
  assert (Hs : surpassesThreshold l1 (result ev) = surpassesThreshold l2 (result ev)).
  { unfold surpassesThreshold. now rewrite Ht. }
  assert (He : emitResult l1 (result ev) w = emitResult l2 (result ev) w).
  { unfold emitResult. now rewrite Hc. }
  rewrite Hr, Hs, He, !IH. reflexivity.
Qed.

Lemma sweep_preparePot l now q w :
  sweep (preparePot l) now q w = sweep l now q w.
Proof.
  apply sweep_ext; unfold preparePot; destruct (_potValid l); reflexivity.
Qed.

Lemma process_unfold l now (p : TemplateWaveformProcessor) (res : TemplateResult) w :
  _processors l <> ∅ ->
  process l now p res w =
  (let q := (queueBeforeSweep l now (id p) res).2 in
   with_queue (erase_ready (sweep l now q w).1 q)
     (queueBeforeSweep l now (id p) res).1
     (_potValid (preparePot l)) (_status l) (preparePot l),
   (sweep l now (queueBeforeSweep l now (id p) res).2 w).2).
Proof.
  intros Hne. unfold process. rewrite bool_decide_eq_false_2 by exact Hne.
  destruct (queueBeforeSweep l now (id p) res) as [ref q].
  rewrite sweep_preparePot. cbv zeta. cbn [fst snd].
  destruct (sweep l now q w) as [ready w1].
  cbn [fst snd]. f_equal. f_equal.
  unfold preparePot. destruct (_potValid l); reflexivity.
Qed.

Lemma newEvent_results l now (procId : string) (res : TemplateResult) :
  results (result (newEvent l now procId res)) = {[ procId := res ]}.
Proof. reflexivity. Qed.

Lemma queueBeforeSweep_last l now (procId : string) (res : TemplateResult) :
  exists q0, (queueBeforeSweep l now procId res).2
             = q0 ++ [newEvent (preparePot l) now procId res].
Proof.
  unfold queueBeforeSweep.
  destruct (merge_loop _ _ _ _ _) as [ref q0]. exists q0. reflexivity.
Qed.

(** Without registered processors [process] does nothing. *)
Lemma process_no_processors l now (p : TemplateWaveformProcessor)
    (res : TemplateResult) w :
  _processors l = ∅ -> process l now p res w = (l, w).
Proof. intros Hemp. unfold process. now rewrite bool_decide_eq_true_2. Qed.

(** C1. In [process], once the event holding the new result alone is
    appended, the sweep calls the result callback, in queue order, with
    the results of exactly the queued events that are fully associated,
    or past their deadline with at least [minArrivals] arrivals (all
    processors when unset), and whose fit reaches the result threshold if
    one is configured; the queue it leaves holds exactly the events that
    are neither fully associated nor past their deadline.  So an event
    past its deadline that does not meet the conditions is removed
    without being emitted, and every emitted or expired event is
    removed. *)
Theorem process_sweep_spec l now (p : TemplateWaveformProcessor)
    (res : TemplateResult) w :
  _processors l <> ∅ ->
  let q := (queueBeforeSweep l now (id p) res).2 in
  let l' := (process l now p res w).1 in
  let w' := (process l now p res w).2 in
  (exists q0 single,
     q = (q0 ++ [single]) /\ results (result single) = {[ id p := res ]}) /\
  w' = published l (result <$> filter (sweepEmits l now) q) w /\
  _queue l' = filter (fun ev => ~ sweepRemoves l now ev) q /\
  (forall ev, ev ∈ q -> pastDeadline now ev -> ~ sweepEmits l now ev ->
     (ev ∉ filter (sweepEmits l now) q) /\ (ev ∉ _queue l')) /\
  (forall ev, ev ∈ q -> sweepEmits l now ev \/ pastDeadline now ev ->
     ev ∉ _queue l').
Proof.
  intros Hne q l' w'. subst l' w'. rewrite (process_unfold l now p res w Hne).
  cbn [fst snd with_queue _queue]. fold q.
  destruct (sweep_spec l now q w) as [Hw Hq].
  rewrite emitAll_published in Hw.
  assert (Hout : forall ev, sweepRemoves l now ev ->
                   ev ∉ erase_ready (sweep l now q w).1 q).
  { intros ev Hrem Hin. rewrite Hq in Hin.
    apply list_elem_of_filter in Hin as [Hnot _]. contradiction. }
  split; [|split; [exact Hw | split; [exact Hq | split]]].
  - destruct (queueBeforeSweep_last l now (id p) res) as [q0 Hq0].
    exists q0, (newEvent (preparePot l) now (id p) res).
    split; [exact Hq0 | apply newEvent_results].
  - intros ev _ Hpast Hno. split.
    + intros Hin. apply list_elem_of_filter in Hin as [Hyes _]. contradiction.
    + apply Hout. right. exact Hpast.
  - intros ev _ [[Hready _] | Hpast]; apply Hout.
    + destruct Hready as [Hfull | [Hpast _]]; [left | right]; assumption.
    + right. exact Hpast.
Qed.

(** ** [terminate] *)

Lemma terminate_loop_spec l q w :
  terminate_loop l q w = emitAll l (result <$> filter (flushEmits l) q) w.
Proof.
  revert w. induction q as [|ev q IH]; intros w; [reflexivity|].
  cbn [terminate_loop]. rewrite IH.
  destruct (_ && _) eqn:Hc.
  - apply andb_true_iff in Hc as [Hn Ht].
    apply minArrivals_or_all_le in Hn. apply surpassesThreshold_true in Ht.
    rewrite (filter_cons_True (flushEmits l)) by (split; assumption).
    reflexivity.
  - rewrite (filter_cons_False (flushEmits l)); [reflexivity|].
    intros [Hn Ht].
    apply minArrivals_or_all_le in Hn. apply surpassesThreshold_true in Ht.
    rewrite Hn, Ht in Hc. discriminate.
Qed.

(** With [minArrivals] unset, or at most the number of processors, a
    fully associated event has enough arrivals. *)
Lemma fullyAssociated_enough l ev :
  fullyAssociated l ev ->
  (forall n, _minArrivals l = Some n -> (n <= getProcessorCount l)%nat) ->
  enoughArrivals l ev.
Proof.
  unfold fullyAssociated, enoughArrivals. intros -> Hmin.
  destruct (_minArrivals l) as [n|]; [apply Hmin; reflexivity | lia].
Qed.

(** C6. [terminate] calls the result callback, in queue order, with the
    results of exactly the queued events with at least [minArrivals]
    arrivals (all processors when unset) whose fit reaches the result
    threshold if one is configured, whatever their deadlines; it leaves
    the queue empty and the status Terminated.  When a fully associated
    event and an event below [minArrivals] are queued, in either order,
    exactly one result is emitted, that of the fully associated event,
    provided that [minArrivals] does not exceed the number of processors
    and that the fit of the fully associated event reaches the result
    threshold if one is configured. *)
Theorem terminate_spec l w :
  let l' := (terminate l w).1 in
  let w' := (terminate l w).2 in
  w' = published l (result <$> filter (flushEmits l) (_queue l)) w /\
  _queue l' = [] /\
  status l' = kTerminated /\
  (forall full partial,
     _queue l = [full; partial] \/ _queue l = [partial; full] ->
     fullyAssociated l full ->
     (forall n, _minArrivals l = Some n -> (n <= getProcessorCount l)%nat) ->
     aboveThreshold l full ->
     ~ enoughArrivals l partial ->
     w' = published l [result full] w).
Proof.
  cbn [terminate fst snd with_queue _queue status _status].
  rewrite terminate_loop_spec, emitAll_published.
  split; [reflexivity|]. split; [reflexivity|]. split; [reflexivity|].
  intros full partial Hq Hfull Hmin Ht Hno.
  assert (Hyes : flushEmits l full).
  { split; [apply fullyAssociated_enough|]; assumption. }
  assert (Hnot : ~ flushEmits l partial) by (intros [? _]; contradiction).
  destruct Hq as [-> | ->].
  - rewrite (filter_cons_True (flushEmits l)) by assumption.
    rewrite (filter_cons_False (flushEmits l)) by assumption. reflexivity.
  - rewrite (filter_cons_False (flushEmits l)) by assumption.
    rewrite (filter_cons_True (flushEmits l)) by assumption. reflexivity.
Qed.

(** ** [feed] *)

(** C5. For a match result fed for a registered processor whose template
    start time is known, while the linker is not terminated, [feed] calls
    [process] with the template arrival whose pick time is
    [window.start + lag + (templateArrival.pick - template.start)]. *)
Theorem feed_pick_time l now (p : TemplateWaveformProcessor) (res : MatchResult)
    (linkerProc : Processor) (templateStart : Core.Time) w :
  status l = kWaitingForData ->
  _processors l !! id p = Some linkerProc ->
  templateStartTime (proc linkerProc) = Some templateStart ->
  exists tr : TemplateResult,
    feed l now (Some p) (Some res) w = process l now p tr w /\
    matchResult tr = res /\
    time (pick (arrival tr))
      = Core.startTime (timeWindow res) + Core.TimeSpan_of_double (lag res)
        + (time (pick (proc_arrival linkerProc)) - templateStart) /\
    waveformStreamId (pick (arrival tr))
      = waveformStreamId (pick (proc_arrival linkerProc)) /\
    phase (arrival tr) = phase (proc_arrival linkerProc).
Proof.
  intros Hst Hproc Hstart.
  eexists {| arrival := _; matchResult := res |}.
  unfold feed. rewrite Hst, Hproc, Hstart. cbn.
  repeat split; reflexivity.
Qed.

(** [feed] does nothing for a null pointer, a terminated linker, an
    unregistered processor, or an unknown template start time. *)
Lemma feed_rejected l now (p : option TemplateWaveformProcessor)
    (res : option MatchResult) w :
  p = None \/ res = None \/ status l = kTerminated \/
  (exists p', p = Some p' /\
     (_processors l !! id p' = None \/
      exists lp, _processors l !! id p' = Some lp /\
                 templateStartTime (proc lp) = None)) ->
  feed l now p res w = (l, w).
Proof.
  unfold feed, status.
  intros [-> | [-> | [Hst | (p' & -> & [Hno | (lp & Hlp & Hts)])]]].
  - reflexivity.
  - destruct p; reflexivity.
  - destruct p, res; try reflexivity. rewrite Hst. reflexivity.
  - destruct res; [|reflexivity]. rewrite Hno. now destruct (_ <? _).
  - destruct res; [|reflexivity]. rewrite Hlp, Hts. now destruct (_ <? _).
Qed.

(** ** Registration *)

Lemma emplace_present {V : Type} (k : string) (v old : V) (m : gmap string V) :
  m !! k = Some old -> emplace k v m = m.
Proof. unfold emplace. now intros ->. Qed.

Lemma emplace_absent {V : Type} (k : string) (v : V) (m : gmap string V) :
  m !! k = None -> emplace k v m = <[k := v]> m.
Proof. unfold emplace. now intros ->. Qed.

Lemma emplace_lookup_other {V : Type} (k k' : string) (v : V) (m : gmap string V) :
  k <> k' -> emplace k v m !! k' = m !! k'.
Proof.
  intros Hne. unfold emplace. destruct (m !! k); [reflexivity|].
  now rewrite lookup_insert_ne.
Qed.

(** C7, as the code has it. [add] with a processor whose id is already
    registered keeps the prior (processor, arrival) binding, discards the
    new one, and invalidates the cached reference POT. *)
Theorem add_registered_keeps_binding l (p : TemplateWaveformProcessor)
    (a : Arrival) (prior : Processor) :
  _processors l !! id p = Some prior ->
  _processors (add (Some p) a l) !! id p = Some prior /\
  _processors (add (Some p) a l) = _processors l /\
  _potValid (add (Some p) a l) = false.
Proof.
  intros Hreg. cbn [add with_processors _processors _potValid].
  rewrite (emplace_present _ _ _ _ Hreg). auto.
Qed.

(** An id that is not registered yet is bound to the new pair. *)
Lemma add_fresh_binds l (p : TemplateWaveformProcessor) (a : Arrival) :
  _processors l !! id p = None ->
  _processors (add (Some p) a l) !! id p = Some {| proc := p; proc_arrival := a |} /\
  _potValid (add (Some p) a l) = false.
Proof.
  intros Hreg. cbn [add with_processors _processors _potValid].
  rewrite (emplace_absent _ _ _ Hreg), lookup_insert_eq. auto.
Qed.

(** ** Associated channels *)

Lemma length_processorStreams l :
  List.length (processorStreams l) = getProcessorCount l.
Proof.
  unfold processorStreams, values, getProcessorCount.
  now rewrite !length_fmap, length_map_to_list.
Qed.

(** C8, as the code has it. [getAssociatedChannelCount] is the number of
    distinct waveform stream ids among the registered template arrivals;
    it is at most [getProcessorCount], and equal to it exactly when no two
    registered processors share a stream. *)
Theorem associated_channels_spec l :
  getAssociatedChannelCount l
    = size (list_to_set (processorStreams l) : gset string) /\
  (getAssociatedChannelCount l <= getProcessorCount l)%nat /\
  (getAssociatedChannelCount l = getProcessorCount l
   <-> NoDup (processorStreams l)).
Proof.
  split; [reflexivity|].
  change (getAssociatedChannelCount l)
    with (size (list_to_set (processorStreams l) : gset string)).
  rewrite <- length_processorStreams. split.
  - apply size_list_to_set_le.
  - apply size_list_to_set_NoDup.
Qed.

(** ** Merging a result into queued events *)

Lemma mergeResult_results (procId : string) (res : TemplateResult) (pt : POT) ev :
  results (result (mergeResult procId res pt ev))
  = emplace procId res (results (result ev)).
Proof. reflexivity. Qed.

(** A result that is stored is never overwritten by [mergeResult] ... *)
Lemma mergeResult_keeps_stored (procId k : string) (res old : TemplateResult)
    (pt : POT) ev :
  results (result ev) !! k = Some old ->
  results (result (mergeResult procId res pt ev)) !! k = Some old.
Proof.
  intros Hold. rewrite mergeResult_results.
  destruct (decide (procId = k)) as [-> | Hne].
  - now rewrite (emplace_present _ _ _ _ Hold).
  - now rewrite emplace_lookup_other.
Qed.

(** ... hence by no iteration of the merge loop. *)
Lemma merge_body_keeps_stored l (procId k : string) (res old : TemplateResult)
    (ref : POT) ev :
  results (result ev) !! k = Some old ->
  results (result (merge_body l procId res ref ev).2) !! k = Some old.
Proof.
  intros Hold. unfold merge_body.
  destruct (_ <? _)%nat; [|exact Hold].
  destruct (match results (result ev) !! procId with
            | Some _ => _ | None => _ end); [|exact Hold].
  destruct (_thresArrivalOffset l) as [thres|].
  - destruct (validatePickOffsets _ _ _) as [ok exceeded].
    destruct (negb ok || _); [exact Hold|].
    now apply mergeResult_keeps_stored.
  - now apply mergeResult_keeps_stored.
Qed.

Lemma merge_loop_keeps_stored l (procId : string) (res : TemplateResult)
    (ref : POT) q (i : nat) ev (k : string) (old : TemplateResult) :
  q !! i = Some ev ->
  results (result ev) !! k = Some old ->
  exists ev', (merge_loop l procId res ref q).2 !! i = Some ev' /\
              results (result ev') !! k = Some old.
Proof.
  revert ref i. induction q as [|e q IH]; intros ref i Hi Hold; [discriminate|].
  cbn [merge_loop].
  pose proof (merge_body_keeps_stored l procId k res old ref e) as Hbody.
  destruct (merge_body l procId res ref e) as [ref1 e1].
  specialize (IH ref1).
  destruct (merge_loop l procId res ref1 q) as [ref2 q1]. cbn [snd] in *.
  destruct i as [|i]; cbn in Hi |- *.
  - injection Hi as ->. exists e1. split; [reflexivity | exact (Hbody Hold)].
  - exact (IH i Hi Hold).
Qed.

(** With the threshold configured, an eligible event is validated against
    the reference POT in which the streams the event holds have been
    disabled; when validation fails the iteration ends without enabling
    them again. *)
Lemma merge_body_validation_failed l (procId : string) (res : TemplateResult)
    (ref : POT) ev (thres : double) :
  _thresArrivalOffset l = Some thres ->
  (getArrivalCount ev < getProcessorCount l)%nat ->
  results (result ev) !! procId = None ->
  (let v := validatePickOffsets (POT_disable (streamsOf ev) ref)
              (POT_make (arrival res :: (arrival <$> values (results (result ev)))))
              thres in
   v.1 = false \/ v.2 <> ∅) ->
  merge_body l procId res ref ev = (POT_disable (streamsOf ev) ref, ev).
Proof.
  intros Hthr Hcount Hnew Hfail. unfold merge_body.
  rewrite (proj2 (Nat.ltb_lt _ _) Hcount), Hnew, Hthr.
  fold (streamsOf ev). cbv zeta in Hfail.
  destruct (validatePickOffsets _ _ _) as [ok exceeded]. cbn [fst snd] in Hfail.
  destruct Hfail as [-> | Hne]; [reflexivity|].
  rewrite (bool_decide_eq_false_2 _ Hne). now rewrite orb_true_r.
Qed.

(** When validation succeeds the result is merged and the reference POT
    enabled again. *)
Lemma merge_body_validation_passed l (procId : string) (res : TemplateResult)
    (ref : POT) ev (thres : double) :
  _thresArrivalOffset l = Some thres ->
  (getArrivalCount ev < getProcessorCount l)%nat ->
  results (result ev) !! procId = None ->
  validatePickOffsets (POT_disable (streamsOf ev) ref)
    (POT_make (arrival res :: (arrival <$> values (results (result ev)))))
    thres = (true, ∅) ->
  merge_body l procId res ref ev
  = (POT_enable (POT_disable (streamsOf ev) ref),
     mergeResult procId res
       (POT_make (arrival res :: (arrival <$> values (results (result ev))))) ev).
Proof.
  intros Hthr Hcount Hnew Hok. unfold merge_body.
  rewrite (proj2 (Nat.ltb_lt _ _) Hcount), Hnew, Hthr.
  fold (streamsOf ev). rewrite Hok.
  now rewrite bool_decide_eq_true_2.
Qed.

Lemma merge_loop_app l (procId : string) (res : TemplateResult) (ref : POT)
    (q1 q2 : list Event) :
  merge_loop l procId res ref (q1 ++ q2) =
  let '(ref1, q1') := merge_loop l procId res ref q1 in
  let '(ref2, q2') := merge_loop l procId res ref1 q2 in
  (ref2, q1' ++ q2').
Proof.
  revert ref. induction q1 as [|ev q1 IH]; intros ref; cbn [merge_loop app].
  - destruct (merge_loop l procId res ref q2). reflexivity.
  - destruct (merge_body l procId res ref ev) as [ref1 ev1].
    rewrite IH. destruct (merge_loop l procId res ref1 q1) as [ref2 q1'].
    destruct (merge_loop l procId res ref2 q2). reflexivity.
Qed.

(** With the arrival offset threshold configured, the iteration of the
    merge loop for an eligible event [ev] (fewer arrivals than processors,
    and no result for [procId] yet or a weaker one) hands to
    [POT::disable] the streams of the arrivals [ev] already holds,
    validates the candidate POT against the result, merges the new result
    only when validation succeeds with an empty exceeded set, and in that
    case enables the reference POT again; when validation fails the event
    is left as it is. *)
Lemma merge_body_validation_spec l (procId : string) (res : TemplateResult)
    (ref : POT) ev (thres : double) :
  _thresArrivalOffset l = Some thres ->
  (getArrivalCount ev < getProcessorCount l)%nat ->
  (results (result ev) !! procId = None \/
   exists old, results (result ev) !! procId = Some old /\
     ltb (coefficient (matchResult old)) (coefficient (matchResult res)) = true) ->
  let ref1 := POT_disable (streamsOf ev) ref in
  let candidate :=
    POT_make (arrival res :: (arrival <$> values (results (result ev)))) in
  let v := validatePickOffsets ref1 candidate thres in
  (v = (true, ∅) ->
     merge_body l procId res ref ev
     = (POT_enable ref1, mergeResult procId res candidate ev)) /\
  (v.1 = false \/ v.2 <> ∅ -> (merge_body l procId res ref ev).2 = ev) /\
  ((merge_body l procId res ref ev).2 <> ev -> v = (true, ∅)).
Proof.
  intros Hthr Hcount Hbetter ref1 candidate v.
  assert (Hbody : merge_body l procId res ref ev =
            if negb v.1 || negb (bool_decide (v.2 = ∅)) then (ref1, ev)
            else (POT_enable ref1, mergeResult procId res candidate ev)).
  { unfold merge_body. rewrite (proj2 (Nat.ltb_lt _ _) Hcount), Hthr.
    fold (streamsOf ev). fold ref1. fold candidate. fold v.
    destruct Hbetter as [-> | (old & -> & ->)]; destruct v; reflexivity. }
  rewrite Hbody. split; [|split].
  - intros ->. cbn [fst snd negb orb]. now rewrite bool_decide_eq_true_2.
  - intros [-> | Hne]; [reflexivity|].
    rewrite (bool_decide_eq_false_2 _ Hne). now rewrite orb_true_r.
  - destruct v as [[] exceeded]; cbn [fst snd negb orb]; [|now intros []].
    destruct (decide (exceeded = ∅)) as [-> | Hne]; [reflexivity|].
    rewrite (bool_decide_eq_false_2 _ Hne). now intros [].
Qed.

Lemma preparePot_fields l :
  _thresArrivalOffset (preparePot l) = _thresArrivalOffset l /\
  _processors (preparePot l) = _processors l /\
  _queue (preparePot l) = _queue l.
Proof. unfold preparePot. destruct (_potValid l); repeat split. Qed.

(** C3 on the code. The threshold is configured and one eligible event
    [ev] is queued; [process] handles a result for a processor [ev] does
    not hold yet and validation of the candidate fails.  The reference
    POT was fully enabled before the loop ([preparePot]) and masked with
    [POT::disable] for the validation; the loop leaves the iteration
    without enabling it again, so the POT [process] leaves behind is the
    masked one. *)
Theorem process_failed_validation_keeps_mask l now
    (p : TemplateWaveformProcessor) (res : TemplateResult) w ev
    (thres : double) :
  _processors l <> ∅ ->
  _queue l = [ev] ->
  _thresArrivalOffset l = Some thres ->
  (getArrivalCount ev < getProcessorCount l)%nat ->
  results (result ev) !! id p = None ->
  let masked := POT_disable (streamsOf ev) (_pot (preparePot l)) in
  let v := validatePickOffsets masked
             (POT_make (arrival res :: (arrival <$> values (results (result ev)))))
             thres in
  v.1 = false \/ v.2 <> ∅ ->
  _pot (process l now p res w).1 = masked /\
  exists single, _queue (process l now p res w).1
                 = filter (fun e => ~ sweepRemoves l now e) [ev; single].
Proof.
  intros Hne Hq Hthr Hcount Hnew masked v Hfail.
  destruct (preparePot_fields l) as (Hthr' & Hprocs' & Hq').
  assert (Hbody : merge_body (preparePot l) (id p) res (_pot (preparePot l)) ev
                  = (masked, ev)).
  { apply (merge_body_validation_failed _ _ _ _ _ thres).
    - now rewrite Hthr'.
    - unfold getProcessorCount. now rewrite Hprocs'.
    - exact Hnew.
    - exact Hfail. }
  assert (Hbefore : queueBeforeSweep l now (id p) res
                    = (masked, [ev; newEvent (preparePot l) now (id p) res])).
  { unfold queueBeforeSweep. rewrite Hq', Hq. cbn [merge_loop].
    rewrite Hbody. reflexivity. }
  rewrite (process_unfold l now p res w Hne), Hbefore.
  cbn [fst snd with_queue _pot _queue]. split; [reflexivity|].
  exists (newEvent (preparePot l) now (id p) res).
  apply (sweep_spec l now).
Qed.

(** ** The event invariant *)

Lemma mergeResult_fitIsMean (procId : string) (res : TemplateResult) (pt : POT) ev :
  fitIsMean (mergeResult procId res pt ev).
Proof. reflexivity. Qed.

Lemma refConsistent_make (deadline : Core.Time) :
  refConsistent (Event_make deadline).
Proof. reflexivity. Qed.

(** Merging a result for a processor the event does not hold yet keeps
    the reference the earliest stored pick. *)
Lemma mergeResult_fresh_refConsistent (procId : string) (res : TemplateResult)
    (pt : POT) ev :
  results (result ev) !! procId = None ->
  refConsistent ev ->
  refConsistent (mergeResult procId res pt ev).
Proof.
  intros Hnew Hinv. unfold refConsistent in *.
  cbn [mergeResult refPickTime result results refProcId].
  rewrite (emplace_absent _ _ _ Hnew).
  destruct (refPickTime ev) as [t|] eqn:Href.
  - destruct Hinv as (r & Hr & Ht & Hmin).
    destruct (time (pick (arrival res)) <? t) eqn:Hlt.
    + apply Z.ltb_lt in Hlt. exists res. rewrite lookup_insert_eq.
      split; [reflexivity|]. split; [reflexivity|].
      intros k r' Hk. destruct (decide (procId = k)) as [-> | Hne].
      * rewrite lookup_insert_eq in Hk. injection Hk as <-. unfold pickTimeOf. lia.
      * rewrite lookup_insert_ne in Hk by exact Hne.
        specialize (Hmin k r' Hk). unfold pickTimeOf in *. lia.
    + apply Z.ltb_ge in Hlt. exists r.
      assert (Hne : procId <> refProcId (result ev)) by congruence.
      rewrite lookup_insert_ne by exact Hne.
      split; [exact Hr|]. split; [exact Ht|].
      intros k r' Hk. destruct (decide (procId = k)) as [-> | Hne'].
      * rewrite lookup_insert_eq in Hk. injection Hk as <-. exact Hlt.
      * rewrite lookup_insert_ne in Hk by exact Hne'. exact (Hmin k r' Hk).
  - cbn. exists res. rewrite lookup_insert_eq.
    split; [reflexivity|]. split; [reflexivity|].
    intros k r' Hk. rewrite Hinv in Hk.
    destruct (decide (procId = k)) as [-> | Hne].
    + rewrite lookup_insert_eq in Hk. injection Hk as <-. reflexivity.
    + rewrite lookup_insert_ne, lookup_empty in Hk by exact Hne. discriminate.
Qed.

Lemma refConsistent_refIsEarliest ev :
  refConsistent ev -> results (result ev) <> ∅ -> refIsEarliest ev.
Proof.
  unfold refConsistent, refIsEarliest.
  destruct (refPickTime ev) as [t|]; [|contradiction].
  intros (r & Hr & <- & Hmin) _. exists r. split; assumption.
Qed.

End Linker.
End linkerFacts.

(** * The linker on concrete inputs *)

Module scenarioFacts.
Import Double detector rules scenario linkerFacts.

(** Facts about concrete runs are conjunctions of equations between plain
    data; each is decided by evaluation. *)
Ltac observe :=
  lazymatch goal with
  | |- _ /\ _ => split; observe
  | |- _ <> _ => vm_compute; intros [=]
  | |- _ => vm_compute; reflexivity
  end.

Lemma queuedA_registered : _processors queuedA <> ∅.
Proof. intros Heq. apply (f_equal size) in Heq. vm_compute in Heq. discriminate. Defined.

(** The sweep for a result of B arriving while a result of A is queued:
    the callback receives one result, that of the event holding A and B. *)
Lemma process_sweep_witness :
  _processors queuedA <> ∅ /\
  (fun r => dom (results r))
    <$> (process queuedA 200 procB (resultB 90 0) ([] : Log)).2
    = [{["A"; "B"]}] /\
  let l := queuedA in
  let now := 200 in
  let res := resultB 90 0 in
  let q := (queueBeforeSweep l now (id procB) res).2 in
  let l' := (process l now procB res ([] : Log)).1 in
  let w' := (process l now procB res ([] : Log)).2 in
  (exists q0 single,
     q = (q0 ++ [single]) /\ results (result single) = {[ id procB := res ]}) /\
  w' = published l (result <$> filter (sweepEmits l now) q) [] /\
  _queue l' = filter (fun ev => ~ sweepRemoves l now ev) q /\
  (forall ev, ev ∈ q -> pastDeadline now ev -> ~ sweepEmits l now ev ->
     (ev ∉ filter (sweepEmits l now) q) /\ (ev ∉ _queue l')) /\
  (forall ev, ev ∈ q -> sweepEmits l now ev \/ pastDeadline now ev ->
     ev ∉ _queue l').
Proof.
  split; [exact queuedA_registered|].
  split; [vm_compute; reflexivity|].
  exact (process_sweep_spec queuedA 200 procB (resultB 90 0) []
           queuedA_registered).
Defined.

(** In that run the event of A becomes fully associated and is the one
    result emitted; the event of B alone stays queued. *)
Example process_emits_full_event :
  let out := process queuedA 200 procB (resultB 90 0) ([] : Log) in
  (fun r => dom (results r)) <$> out.2 = [{["A"; "B"]}] /\
  members <$> _queue out.1 = [{["B"]}].
Proof. cbv zeta. observe. Qed.

(** The pick time for a match of A whose window starts at 0 s. *)
Lemma feed_pick_time_witness :
  status linkerAB = kWaitingForData /\
  _processors linkerAB !! id procA
    = Some {| proc := procA; proc_arrival := arrivalA |} /\
  templateStartTime procA = Some 0 /\
  exists tr : TemplateResult,
    feed linkerAB 100 (Some procA) (Some (matchAt 50 0)) ([] : Log)
      = process linkerAB 100 procA tr [] /\
    matchResult tr = matchAt 50 0 /\
    time (pick (arrival tr))
      = Core.startTime (timeWindow (matchAt 50 0))
        + Core.TimeSpan_of_double (lag (matchAt 50 0))
        + (time (pick arrivalA) - 0) /\
    waveformStreamId (pick (arrival tr)) = waveformStreamId (pick arrivalA) /\
    phase (arrival tr) = phase arrivalA.
Proof.
  split; [reflexivity|]. split; [reflexivity|]. split; [reflexivity|].
  apply (feed_pick_time linkerAB 100 procA (matchAt 50 0)
           {| proc := procA; proc_arrival := arrivalA |} 0 []);
    reflexivity.
Defined.

Lemma two_events (q : list Event) (d : Event) :
  List.length q = 2%nat -> q = [hd d q; hd d (tl q)].
Proof. destruct q as [|a [|b [|c q]]]; intros [=]. reflexivity. Defined.

(** The queue at termination: processor C has been removed, so the event
    holding A and B is fully associated and the event holding B alone is
    below [minArrivals]. *)
Lemma terminate_witness :
  (_queue flushed = [eventAB; eventB] \/ _queue flushed = [eventB; eventAB]) /\
  fullyAssociated flushed eventAB /\
  (forall n, _minArrivals flushed = Some n -> (n <= getProcessorCount flushed)%nat) /\
  aboveThreshold flushed eventAB /\ ~ enoughArrivals flushed eventB /\
  (terminate flushed ([] : Log)).2 = published flushed [result eventAB] [] /\
  _queue (terminate flushed ([] : Log)).1 = [] /\
  status (terminate flushed ([] : Log)).1 = kTerminated /\
  (fun r => dom (results r)) <$> (terminate flushed ([] : Log)).2
    = [{["A"; "B"]}].
Proof.
  assert (Hlog : (fun r => dom (results r)) <$> (terminate flushed ([] : Log)).2
                 = [{["A"; "B"]}]) by (vm_compute; reflexivity).
  assert (H0 : _queue flushed = [eventAB; eventB] \/
               _queue flushed = [eventB; eventAB]).
  { left. apply two_events. vm_compute. reflexivity. }
  assert (H1 : fullyAssociated flushed eventAB) by (vm_compute; reflexivity).
  assert (H2 : forall n, _minArrivals flushed = Some n ->
                         (n <= getProcessorCount flushed)%nat)
    by (intros n Hn; vm_compute in Hn; discriminate Hn).
  assert (H3 : aboveThreshold flushed eventAB) by (vm_compute; exact I).
  assert (H4 : ~ enoughArrivals flushed eventB) by (vm_compute; lia).
  destruct (terminate_spec flushed ([] : Log)) as (_ & Hq & Hst & Hone).
  exact (conj H0 (conj H1 (conj H2 (conj H3 (conj H4
           (conj (Hone eventAB eventB H0 H1 H2 H3 H4)
              (conj Hq (conj Hst Hlog)))))))).
Defined.

(** With [minArrivals] above the number of processors left, the fully
    associated event is below [minArrivals] as well: nothing is emitted
    at termination. *)
Lemma terminate_strict_counterexample :
  members <$> _queue flushedStrict = [{["A"; "B"]}; {["B"]}] /\
  getProcessorCount flushedStrict = 2%nat /\
  _minArrivals flushedStrict = Some 3%nat /\
  fullyAssociated flushedStrict (frontEvent flushedStrict) /\
  aboveThreshold flushedStrict (frontEvent flushedStrict) /\
  ~ enoughArrivals flushedStrict
      (hd (Event_make 0) (tl (_queue flushedStrict))) /\
  List.length (terminate flushedStrict ([] : Log)).2 = 0%nat /\
  (terminate flushedStrict ([] : Log)).2
    <> published flushedStrict [result (frontEvent flushedStrict)] [].
Proof.
  split; [vm_compute; reflexivity|]. split; [vm_compute; reflexivity|].
  split; [vm_compute; reflexivity|]. split; [vm_compute; reflexivity|].
  split; [vm_compute; exact I|]. split; [vm_compute; lia|].
  split; [vm_compute; reflexivity|].
  intros Heq. apply (f_equal (@List.length _)) in Heq.
  vm_compute in Heq. discriminate Heq.
Qed.

(** At termination exactly one result, that of the fully associated
    event, reaches the callback. *)
Example terminate_emits_one :
  let out := terminate flushed ([] : Log) in
  members <$> _queue flushed = [{["A"; "B"]}; {["B"]}] /\
  getProcessorCount flushed = 2%nat /\
  (fun r => dom (results r)) <$> out.2 = [{["A"; "B"]}] /\
  List.length (_queue out.1) = 0%nat /\ status out.1 = kTerminated.
Proof. cbv zeta. observe. Qed.

(** ** Registering an id twice *)

(** C7 fails: after [add] with the registered id "A", a lookup of "A"
    yields the binding registered first, not the one just added. *)
Lemma add_duplicate_counterexample :
  _processors linkerAB !! id procA'
    = Some {| proc := procA; proc_arrival := arrivalA |} /\
  _processors (add (Some procA') arrivalA' linkerAB) !! id procA'
    <> Some {| proc := procA'; proc_arrival := arrivalA' |}.
Proof. observe. Qed.

Lemma add_registered_witness :
  _processors linkerAB !! id procA'
    = Some {| proc := procA; proc_arrival := arrivalA |} /\
  _processors (add (Some procA') arrivalA' linkerAB) !! id procA'
    = Some {| proc := procA; proc_arrival := arrivalA |} /\
  _processors (add (Some procA') arrivalA' linkerAB) = _processors linkerAB /\
  _potValid (add (Some procA') arrivalA' linkerAB) = false.
Proof.
  split; [reflexivity|].
  apply (add_registered_keeps_binding linkerAB procA' arrivalA'). reflexivity.
Defined.

(** ** Processors sharing a stream *)

(** C8 fails: two processors registered on the same stream count as one
    associated channel. *)
Lemma associated_channels_counterexample :
  getProcessorCount linkerShared = 2%nat /\
  getAssociatedChannelCount linkerShared = 1%nat /\
  getAssociatedChannelCount linkerShared <> getProcessorCount linkerShared.
Proof. observe. Qed.

Lemma associated_channels_witness :
  getAssociatedChannelCount linkerShared
    = size (list_to_set (processorStreams linkerShared) : gset string) /\
  (getAssociatedChannelCount linkerShared <= getProcessorCount linkerShared)%nat /\
  (getAssociatedChannelCount linkerShared = getProcessorCount linkerShared
   <-> NoDup (processorStreams linkerShared)).
Proof. exact (associated_channels_spec linkerShared). Defined.

(** ** A better match for a processor the event already holds *)

(** C2 on the code. A match of A with coefficient 0.5 is queued, two
    processors being registered; a match of A with coefficient 0.9 and a
    pick at 1.5 s is fed.  The queued event is eligible, the new
    coefficient is strictly greater and the candidate passes the offset
    validation, yet after [process] the event still stores the first
    result for A: its coefficient is 0.5 and its pick 1 s. *)
Theorem process_keeps_weaker_result :
  let c50 := coefficient (matchAt 50 0) in
  let c90 := coefficient (matchAt 90 500000) in
  let tr := resultA 90 500000 in
  let after := (process queuedA 200 procA tr ([] : Log)).1 in
  let fed :=
    (feed queuedA 200 (Some procA) (Some (matchAt 90 500000)) ([] : Log)).1 in
  getProcessorCount queuedA = 2%nat /\
  getArrivalCount <$> _queue queuedA = [1%nat] /\
  storedFor "A" <$> _queue queuedA = [Some (1000000, c50)] /\
  (time (pick (arrival tr)), coefficient (matchResult tr)) = (1500000, c90) /\
  ltb c50 c90 = true /\
  validation queuedA tr config.lit_2em6 <$> _queue queuedA = [(true, ∅)] /\
  storedFor "A" <$> _queue after
    = [Some (1000000, c50); Some (1500000, c90)] /\
  storedFor "A" <$> _queue fed
    = [Some (1000000, c50); Some (1500000, c90)].
Proof. cbv zeta. observe. Qed.

(** ** Validation against the reference POT *)

Lemma queuedA3_registered : _processors queuedA3 <> ∅.
Proof. intros Heq. apply (f_equal size) in Heq. vm_compute in Heq. discriminate. Defined.

Lemma one_event (q : list Event) (d : Event) :
  List.length q = 1%nat -> q = [hd d q].
Proof. destruct q as [|a [|b q]]; intros [=]. reflexivity. Defined.

(** Three processors are registered, the arrival offset threshold is
    2.0e-6 s and a match of A is queued; a match of B with a pick 6 s
    after that of A (the templates are 1 s apart) is processed.
    Validation fails and the reference POT stays masked. *)
Lemma process_failed_validation_witness :
  let l := queuedA3 in
  let ev := frontEvent queuedA3 in
  let res := resultB 90 5000000 in
  let masked := POT_disable (streamsOf ev) (_pot (preparePot l)) in
  let v := validatePickOffsets masked
             (POT_make (arrival res :: (arrival <$> values (results (result ev)))))
             config.lit_2em6 in
  _processors l <> ∅ /\
  _queue l = [ev] /\
  _thresArrivalOffset l = Some config.lit_2em6 /\
  (getArrivalCount ev < getProcessorCount l)%nat /\
  results (result ev) !! id procB = None /\
  (v.1 = false \/ v.2 <> ∅) /\
  _pot (process l 200 procB res ([] : Log)).1 = masked /\
  exists single, _queue (process l 200 procB res ([] : Log)).1
                 = filter (fun e => ~ sweepRemoves l 200 e) [ev; single].
Proof.
  cbv zeta.
  assert (H0 : _queue queuedA3 = [frontEvent queuedA3])
    by (apply one_event; vm_compute; reflexivity).
  assert (H1 : _thresArrivalOffset queuedA3 = Some config.lit_2em6) by observe.
  assert (H2 : (getArrivalCount (frontEvent queuedA3)
                < getProcessorCount queuedA3)%nat) by (vm_compute; lia).
  assert (H3 : results (result (frontEvent queuedA3)) !! id procB = None)
    by observe.
  assert (H4 : (validatePickOffsets
                  (POT_disable (streamsOf (frontEvent queuedA3))
                     (_pot (preparePot queuedA3)))
                  (POT_make
                     (arrival (resultB 90 5000000)
                      :: (arrival <$> values
                            (results (result (frontEvent queuedA3))))))
                  config.lit_2em6).1 = false) by observe.
  exact (conj queuedA3_registered (conj H0 (conj H1 (conj H2 (conj H3
           (conj (or_introl H4)
              (process_failed_validation_keeps_mask queuedA3 200 procB
                 (resultB 90 5000000) [] (frontEvent queuedA3) config.lit_2em6
                 queuedA3_registered H0 H1 H2 H3 (or_introl H4)))))))).
Defined.

(** In that run the event of A is left alone, the result of B is queued
    on its own, and the reference POT, fully enabled before the call,
    has the row of a stream disabled after it. *)
Example process_failed_validation_run :
  let tr := resultB 90 5000000 in
  let after := (process queuedA3 200 procB tr ([] : Log)).1 in
  members <$> _queue queuedA3 = [{["A"]}] /\
  streamsOf <$> _queue queuedA3 = [{["CH.A..HHZ"]}] /\
  members <$> _queue after = [{["A"]}; {["B"]}] /\
  _pot after = POT_disable {["CH.A..HHZ"]} (POT_enable (_pot queuedA3)) /\
  (fun a => waveformStreamId (pick a)) <$> SpecPOT.arrivals (_pot after)
    = ["CH.C..HHZ"; "CH.A..HHZ"; "CH.B..HHZ"] /\
  SpecPOT.enabled (_pot queuedA3) = [true; true; true] /\
  SpecPOT.enabled (_pot after) = [true; false; true] /\
  _pot after <> POT_enable (_pot after).
Proof. cbv zeta. observe. Qed.

(** The mask left by a failed validation reaches the next event of the
    loop.  Two events are queued and a match of C, 13 s after the pick of
    B where the templates are 1 s apart, is processed.  Validated against
    the fully enabled reference POT the candidate fails for both events;
    in the run the first validation fails and leaves the stream of A
    disabled, and with that mask the second succeeds: the result is
    merged into the second event. *)
Example process_failed_validation_leaks :
  let tr := {| arrival := setPickTime 20000000 arrivalC;
               matchResult := matchAt 90 17000000 |} in
  let after := (process queuedA3B3 300 procC tr ([] : Log)).1 in
  members <$> _queue queuedA3B3 = [{["A"]}; {["B"]}] /\
  storedFor "B" <$> _queue queuedA3B3
    = [None; Some (7000000, coefficient (matchAt 90 5000000))] /\
  (fun ev => (validation queuedA3B3 tr config.lit_2em6 ev).1)
    <$> _queue queuedA3B3 = [false; false] /\
  members <$> _queue after = [{["A"]}; {["B"; "C"]}; {["C"]}].
Proof. cbv zeta. observe. Qed.

(** The validation of a match of B against the queued event of A, two
    processors being registered: it succeeds and the result is merged. *)
Example merge_body_validation_run :
  let ev := frontEvent queuedA in
  let res := resultB 90 0 in
  validation queuedA res config.lit_2em6 ev = (true, ∅) /\
  members (merge_body queuedA "B" res (POT_enable (_pot queuedA)) ev).2
    = {["A"; "B"]}.
Proof. cbv zeta. observe. Qed.

(** ** The reference processor after a second match *)

Lemma observe_at {A B : Type} (f : A -> B) (l : list A) (vs : list B)
    (i : nat) (x : A) :
  f <$> l = vs -> l !! i = Some x -> vs !! i = Some (f x).
Proof. intros <- Hx. now rewrite list_lookup_fmap, Hx. Qed.

(** C4 on the code. Three processors are registered; A matches with a
    pick at 11 s, B with a pick at 10 s, then A again, better, with a
    pick at 9 s.  The first queued event still stores one result per
    processor and its fit is their mean, but its reference is A, whose
    stored pick (11 s) is later than that of B (10 s). *)
Theorem mergeResult_breaks_reference :
  let after :=
    (feed queuedAB 300 (Some procA) (Some (matchAt 90 8000000)) ([] : Log)).1 in
  members <$> _queue after = [{["A"; "B"]}; {["A"; "B"]}; {["A"]}] /\
  (fun ev => fit (result ev)) <$> _queue after
    = (fun ev => utils.cma ((fun r => coefficient (matchResult r))
                              <$> values (results (result ev))))
        <$> _queue after /\
  (fun ev => refProcId (result ev)) <$> _queue after = ["A"; "A"; "A"] /\
  (fun ev => fst <$> storedFor "A" ev) <$> _queue after
    = [Some 11000000; Some 9000000; Some 9000000] /\
  (fun ev => fst <$> storedFor "B" ev) <$> _queue after
    = [Some 10000000; Some 10000000; None] /\
  (forall E, _queue after !! 0%nat = Some E -> ~ refIsEarliest E).
Proof.
  cbv zeta.
  set (after := (feed queuedAB 300 (Some procA) (Some (matchAt 90 8000000))
                   ([] : Log)).1).
  assert (Href : (fun ev => refProcId (result ev)) <$> _queue after
                 = ["A"; "A"; "A"]) by observe.
  assert (HA : (fun ev => fst <$> storedFor "A" ev) <$> _queue after
               = [Some 11000000; Some 9000000; Some 9000000]) by observe.
  assert (HB : (fun ev => fst <$> storedFor "B" ev) <$> _queue after
               = [Some 10000000; Some 10000000; None]) by observe.
  split; [observe|]. split; [observe|].
  split; [exact Href|]. split; [exact HA|]. split; [exact HB|].
  intros E HE (r & Hr & Hmin).
  pose proof (observe_at _ _ _ _ _ Href HE) as Hid.
  pose proof (observe_at _ _ _ _ _ HA HE) as Ha.
  pose proof (observe_at _ _ _ _ _ HB HE) as Hb.
  cbn [lookup list_lookup] in Hid, Ha, Hb.
  injection Hid as Hid. rewrite <- Hid in Hr.
  unfold storedFor in Ha, Hb. rewrite Hr in Ha. cbn in Ha.
  destruct (results (result E) !! "B") as [rb|] eqn:Hrb; [|discriminate Hb].
  cbn in Hb. specialize (Hmin "B" rb Hrb). unfold pickTimeOf in Hmin.
  injection Ha as Ha. injection Hb as Hb. lia.
Qed.

End scenarioFacts.

(** * Further properties of the linker *)

Module linkerMore.
Import Double detector rules invariants linkerFacts.

Lemma emplace_dom {V : Type} (k : string) (v : V) (m : gmap string V) :
  dom (emplace k v m) = {[k]} ∪ dom m.
Proof.
  unfold emplace. destruct (m !! k) as [x|] eqn:Hk.
  - symmetry. apply subseteq_union_1_L, singleton_subseteq_l, elem_of_dom.
    eauto.
  - apply dom_insert_L.
Qed.

Lemma emplace_ne_empty {V : Type} (k : string) (v : V) (m : gmap string V) :
  emplace k v m <> ∅.
Proof.
  unfold emplace. destruct (m !! k) as [x|] eqn:Hk.
  - intros ->. rewrite lookup_empty in Hk. discriminate.
  - apply insert_non_empty.
Qed.

Section Linker.
Context `{Core.Conversions} `{POTInterface} {World : Type}.
Implicit Types (l : @Linker _ World) (ev : Event) (now : Core.Time)
  (q : list Event) (w : World).

(** ** Configuration and registration *)

(** X1. [setMinArrivals] never stores 0: a stored value is at least 1, a
    value of at least 1 is stored as it is, and [setMinArrivals(0)] is
    [setMinArrivals(none)], after which an event has enough arrivals only
    with all processors. *)
Theorem setMinArrivals_spec (n : option nat) l :
  (forall k, _minArrivals (setMinArrivals n l) = Some k -> (1 <= k)%nat /\ n = Some k) /\
  (forall k, (1 <= k)%nat -> _minArrivals (setMinArrivals (Some k) l) = Some k) /\
  setMinArrivals (Some 0%nat) l = setMinArrivals None l /\
  (forall ev, enoughArrivals (setMinArrivals (Some 0%nat) l) ev
              <-> (getProcessorCount l <= getArrivalCount ev)%nat).
Proof.
  split; [|split; [|split]].
  - intros k. cbn [setMinArrivals _minArrivals].
    destruct n as [m|]; [|discriminate].
    destruct (m <? 1)%nat eqn:Hm; [discriminate|].
    apply Nat.ltb_ge in Hm. intros [= ->]. auto.
  - intros k Hk. cbn [setMinArrivals _minArrivals].
    now rewrite (proj2 (Nat.ltb_ge k 1) Hk).
  - reflexivity.
  - intros ev. reflexivity.
Qed.

(** X2. Results for a removed processor are dropped: after [remove], [feed]
    for that processor changes nothing.  [remove] itself leaves the queue
    untouched, so results of the removed processor that are already queued
    stay in their events. *)
Theorem remove_then_feed l now (p : TemplateWaveformProcessor)
    (res : option MatchResult) w :
  feed (remove (id p) l) now (Some p) res w = (remove (id p) l, w) /\
  _queue (remove (id p) l) = _queue l /\
  _processors (remove (id p) l) !! id p = None /\
  _potValid (remove (id p) l) = false.
Proof.
  split; [|split; [reflexivity | split; [apply lookup_delete_eq | reflexivity]]].
  unfold feed. destruct res as [res|]; [|reflexivity].
  destruct (_ <? _); [|reflexivity].
  cbn [remove with_processors _processors]. now rewrite lookup_delete_eq.
Qed.

(** X3. Registering a processor under a fresh id adds one processor, and
    removing it again restores the registered processors; the reference
    POT is invalid after either step. *)
Theorem add_remove_roundtrip l (p : TemplateWaveformProcessor) (a : Arrival) :
  _processors l !! id p = None ->
  getProcessorCount (add (Some p) a l) = S (getProcessorCount l) /\
  _processors (remove (id p) (add (Some p) a l)) = _processors l /\
  getProcessorCount (remove (id p) (add (Some p) a l)) = getProcessorCount l /\
  _potValid (add (Some p) a l) = false /\
  _potValid (remove (id p) (add (Some p) a l)) = false.
Proof.
  intros Hfresh.
  assert (Hdel : _processors (remove (id p) (add (Some p) a l)) = _processors l).
  { cbn [remove add with_processors _processors].
    rewrite (emplace_absent _ _ _ Hfresh). now apply delete_insert_id. }
  split; [|split; [exact Hdel | split; [|split; reflexivity]]].
  - unfold getProcessorCount. cbn [add with_processors _processors].
    rewrite (emplace_absent _ _ _ Hfresh). now apply map_size_insert_None.
  - unfold getProcessorCount. now rewrite Hdel.
Qed.

(** A null processor is ignored by [add]; removing an id that is not
    registered changes no binding. *)
Lemma add_null_remove_missing l (a : Arrival) (procId : string) :
  add None a l = l /\
  (_processors l !! procId = None ->
   _processors (remove procId l) = _processors l).
Proof. split; [reflexivity|]. intros Hno. now apply delete_id. Qed.

(** ** Life cycle *)

(** X4. [terminate] freezes the linker: afterwards [feed] changes neither
    the linker nor the world, whatever is fed, and a second [terminate]
    emits nothing. *)
Theorem terminate_freezes l w now (p : option TemplateWaveformProcessor)
    (res : option MatchResult) w' :
  let frozen := (terminate l w).1 in
  feed frozen now p res w' = (frozen, w') /\
  terminate frozen w' = (frozen, w').
Proof.
  cbv zeta. split.
  - apply feed_rejected. right. right. left. reflexivity.
  - reflexivity.
Qed.

(** X5. [reset] discards the queued events without emitting any of them
    and keeps the registered processors and the thresholds; after
    [terminate] and [reset] the linker accepts results again: [feed] for a
    registered processor with a known template start reaches [process]. *)
Theorem reset_rearms l w now (p : TemplateWaveformProcessor) (res : MatchResult)
    (linkerProc : Processor) (templateStart : Core.Time) :
  _processors l !! id p = Some linkerProc ->
  templateStartTime (proc linkerProc) = Some templateStart ->
  let l0 := reset (terminate l w).1 in
  _queue l0 = [] /\ status l0 = kWaitingForData /\
  _processors l0 = _processors l /\
  _thresResult l0 = _thresResult l /\ _minArrivals l0 = _minArrivals l /\
  _thresArrivalOffset l0 = _thresArrivalOffset l /\
  terminate_loop l0 (_queue l0) w = w /\
  feed l0 now (Some p) (Some res) w
  = process l0 now p
      {| arrival :=
           setPickTime (Core.startTime (timeWindow res)
                        + Core.TimeSpan_of_double (lag res)
                        + (time (pick (proc_arrival linkerProc)) - templateStart))
                       (proc_arrival linkerProc);
         matchResult := res |} w.
Proof.
  intros Hreg Hstart. cbv zeta.
  repeat (split; [reflexivity|]).
  unfold feed. cbn [reset terminate fst with_queue status _status _processors].
  cbn [Status_as_integer]. now rewrite Hreg, Hstart.
Qed.

(** ** What the merge loop does to the queue *)

(** An iteration either leaves the event as it is or merges the result. *)
Lemma merge_body_cases l (procId : string) (res : TemplateResult) (ref : POT) ev :
  (merge_body l procId res ref ev).2 = ev \/
  exists pt, (merge_body l procId res ref ev).2 = mergeResult procId res pt ev.
Proof.
  unfold merge_body.
  destruct (_ <? _)%nat; [|now left].
  destruct (match results (result ev) !! procId with
            | Some _ => _ | None => _ end); [|now left].
  destruct (_thresArrivalOffset l) as [thres|]; [|right; eauto].
  destruct (validatePickOffsets _ _ _) as [ok exceeded].
  destruct (negb ok || _); [now left | right; eauto].
Qed.

Lemma merge_loop_Forall2 (R : Event -> Event -> Prop) l (procId : string)
    (res : TemplateResult) :
  (forall ev, R ev ev) ->
  (forall ev pt, R ev (mergeResult procId res pt ev)) ->
  forall (ref : POT) q, Forall2 R q (merge_loop l procId res ref q).2.
Proof.
  intros Hrefl Hmerge ref q. revert ref.
  induction q as [|ev q IH]; intros ref; cbn [merge_loop]; [constructor|].
  pose proof (merge_body_cases l procId res ref ev) as Hcases.
  destruct (merge_body l procId res ref ev) as [ref1 ev1].
  specialize (IH ref1). destruct (merge_loop l procId res ref1 q) as [ref2 q1].
  cbn [snd] in *. constructor; [|exact IH].
  destruct Hcases as [-> | [pt ->]]; auto.
Qed.

Lemma merge_loop_related l (procId : string) (res : TemplateResult)
    (ref : POT) q :
  Forall2 (mergedFrom procId) q (merge_loop l procId res ref q).2.
Proof.
  apply merge_loop_Forall2.
  - intros ev. split; [reflexivity|]. split; [auto|].
    split; [apply union_subseteq_r | lia].
  - intros ev pt. split; [reflexivity|].
    split; [intros k old; apply mergeResult_keeps_stored|].
    rewrite mergeResult_results. unfold getArrivalCount.
    rewrite mergeResult_results. split; [now rewrite emplace_dom|].
    unfold emplace. destruct (results (result ev) !! procId) eqn:Hk; [lia|].
    rewrite (map_size_insert_None _ _ _ Hk). lia.
Qed.

(** X6. The merge loop keeps the queue as it is but for merged results:
    same length, and the event at each position keeps its deadline and
    every result it held, and gains at most one result, for the
    processor of the new result. *)
Theorem merge_loop_preserves l (procId : string) (res : TemplateResult)
    (ref : POT) q :
  List.length (merge_loop l procId res ref q).2 = List.length q /\
  forall (i : nat) ev, q !! i = Some ev ->
    exists ev', (merge_loop l procId res ref q).2 !! i = Some ev' /\
      expired ev' = expired ev /\
      (forall k old, results (result ev) !! k = Some old ->
                     results (result ev') !! k = Some old) /\
      dom (results (result ev')) ⊆ {[procId]} ∪ dom (results (result ev)) /\
      (getArrivalCount ev <= getArrivalCount ev' <= S (getArrivalCount ev))%nat.
Proof.
  pose proof (merge_loop_related l procId res ref q) as HF. split.
  - symmetry. exact (Forall2_length _ _ _ HF).
  - intros i ev Hi.
    destruct (Forall2_lookup_l _ _ _ _ _ HF Hi) as (ev' & Hi' & Hrel).
    exists ev'. split; [exact Hi' | exact Hrel].
Qed.

(** Without an arrival offset threshold an eligible event that lacks the
    processor takes the result, whatever the reference POT. *)
Lemma merge_body_no_threshold l (procId : string) (res : TemplateResult)
    (ref : POT) ev :
  _thresArrivalOffset l = None ->
  (getArrivalCount ev < getProcessorCount l)%nat ->
  results (result ev) !! procId = None ->
  results (result (merge_body l procId res ref ev).2)
  = <[procId := res]> (results (result ev)).
Proof.
  intros Hthr Hcount Hnew. unfold merge_body.
  rewrite (proj2 (Nat.ltb_lt _ _) Hcount), Hnew, Hthr. cbn [snd].
  rewrite mergeResult_results. now apply emplace_absent.
Qed.

(** An event that holds as many results as there are processors, or
    more, is left as it is. *)
Lemma merge_body_full l (procId : string) (res : TemplateResult)
    (ref : POT) ev :
  (getProcessorCount l <= getArrivalCount ev)%nat ->
  merge_body l procId res ref ev = (ref, ev).
Proof.
  intros Hfull. unfold merge_body.
  now rewrite (proj2 (Nat.ltb_ge _ _) Hfull).
Qed.

(** X7. Without an arrival offset threshold a result is merged into every
    queued event that holds fewer results than there are registered
    processors and no result of its processor yet, not only into the
    first or the best one; an event that holds as many results as there
    are processors, or more (as can happen after [remove]), is left as
    it is. *)
Theorem merge_loop_merges_into_all l (procId : string) (res : TemplateResult)
    (ref : POT) q (i : nat) ev :
  _thresArrivalOffset l = None ->
  q !! i = Some ev ->
  ((getArrivalCount ev < getProcessorCount l)%nat ->
   results (result ev) !! procId = None ->
   exists ev', (merge_loop l procId res ref q).2 !! i = Some ev' /\
     results (result ev') = <[procId := res]> (results (result ev)) /\
     getArrivalCount ev' = S (getArrivalCount ev)) /\
  ((getProcessorCount l <= getArrivalCount ev)%nat ->
   (merge_loop l procId res ref q).2 !! i = Some ev).
Proof.
  intros Hthr. revert ref i.
  induction q as [|e q IH]; intros ref i Hi; [discriminate|].
  cbn [merge_loop].
  pose proof (merge_body_no_threshold l procId res ref e Hthr) as Hbody.
  pose proof (merge_body_full l procId res ref e) as Hskip.
  destruct (merge_body l procId res ref e) as [ref1 e1].
  specialize (IH ref1).
  destruct (merge_loop l procId res ref1 q) as [ref2 q1]. cbn [snd] in *.
  destruct i as [|i]; cbn in Hi |- *.
  - injection Hi as ->. split.
    + intros Hcount Hnew. exists e1. split; [reflexivity|].
      specialize (Hbody Hcount Hnew). split; [exact Hbody|].
      unfold getArrivalCount. rewrite Hbody. now apply map_size_insert_None.
    + intros Hfull. specialize (Hskip Hfull). now injection Hskip as _ ->.
  - exact (IH i Hi).
Qed.

(** ** What [process] does to the queue *)

(** The queue and the world after [process]: the merged queue with the
    new event at its back, swept. *)
Lemma process_result l now (p : TemplateWaveformProcessor) (res : TemplateResult) w :
  _processors l <> ∅ ->
  let merged := (merge_loop (preparePot l) (id p) res (_pot (preparePot l))
                   (_queue l)).2 in
  let single := newEvent (preparePot l) now (id p) res in
  _queue (process l now p res w).1
    = filter (fun ev => ~ sweepRemoves l now ev) (merged ++ [single]) /\
  (process l now p res w).2
    = emitAll l (result <$> filter (sweepEmits l now) (merged ++ [single])) w /\
  _processors (process l now p res w).1 = _processors l /\
  _potValid (process l now p res w).1 = true.
Proof.
  intros Hne merged single.
  destruct (preparePot_fields l) as (_ & Hprocs & Hq).
  assert (Hbefore : (queueBeforeSweep l now (id p) res).2 = merged ++ [single]).
  { unfold queueBeforeSweep, merged, single. rewrite Hq.
    destruct (merge_loop _ _ _ _ _). reflexivity. }
  rewrite (process_unfold l now p res w Hne), Hbefore.
  cbn [fst snd with_queue _queue _processors _potValid].
  destruct (sweep_spec l now (merged ++ [single]) w) as [Hw Hqueue].
  split; [exact Hqueue|]. split; [exact Hw|]. split; [exact Hprocs|].
  unfold preparePot. now destruct (_potValid l) eqn:Hv.
Qed.

Lemma newEvent_facts l now (procId : string) (res : TemplateResult) :
  results (result (newEvent l now procId res)) = {[ procId := res ]} /\
  getArrivalCount (newEvent l now procId res) = 1%nat /\
  expired (newEvent l now procId res) = now + _onHold l /\
  refProcId (result (newEvent l now procId res)) = procId.
Proof.
  split; [reflexivity|]. split; [|split; reflexivity].
  unfold getArrivalCount. rewrite newEvent_results. apply map_size_singleton.
Qed.

Lemma preparePot_onHold l : _onHold (preparePot l) = _onHold l.
Proof. unfold preparePot. now destruct (_potValid l). Qed.

Lemma wellFormedEvent_count l ev :
  wellFormedEvent l ev ->
  (1 <= getArrivalCount ev <= getProcessorCount l)%nat.
Proof.
  intros [Hne Hsub]. unfold getArrivalCount, getProcessorCount. split.
  - apply map_size_non_empty_iff in Hne. lia.
  - rewrite <- (size_dom (D := gset string) (results (result ev))).
    rewrite <- (size_dom (D := gset string) (_processors l)).
    now apply subseteq_size.
Qed.

Lemma merge_loop_wellFormed l0 l (procId : string) (res : TemplateResult)
    (ref : POT) q :
  procId ∈ dom (_processors l) ->
  Forall (wellFormedEvent l) q ->
  Forall (wellFormedEvent l) (merge_loop l0 procId res ref q).2.
Proof.
  intros Hin Hwf.
  pose proof (merge_loop_related l0 procId res ref q) as HF.
  induction HF as [|ev ev' q q' (_ & Hkeep & Hdom & _) _ IH]; [constructor|].
  apply Forall_cons in Hwf as [[Hnon Hsub] Hwf].
  constructor; [|exact (IH Hwf)]. split.
  - apply map_choose in Hnon as (k & old & Hk).
    intros Hemp. specialize (Hkeep k old Hk).
    rewrite Hemp, lookup_empty in Hkeep. discriminate.
  - etransitivity; [exact Hdom|].
    apply union_subseteq. split; [now apply singleton_subseteq_l | exact Hsub].
Qed.

(** Every event [process] leaves in the queue is well formed and was not
    due for removal. *)
Lemma process_kept l now (p : TemplateWaveformProcessor)
    (res : TemplateResult) w :
  id p ∈ dom (_processors l) ->
  wellFormedQueue l ->
  forall ev, ev ∈ _queue (process l now p res w).1 ->
    wellFormedEvent (process l now p res w).1 ev /\ ~ sweepRemoves l now ev.
Proof.
  intros Hin Hwf.
  assert (Hne : _processors l <> ∅).
  { intros Hemp. rewrite Hemp, dom_empty_L in Hin.
    now apply not_elem_of_empty in Hin. }
  destruct (process_result l now p res w Hne) as (Hq & _ & Hprocs & _).
  cbv zeta in Hq.
  set (merged := (merge_loop (preparePot l) (id p) res (_pot (preparePot l))
                    (_queue l)).2) in *.
  set (single := newEvent (preparePot l) now (id p) res) in *.
  assert (Hmerged : Forall (wellFormedEvent l) merged)
    by (apply merge_loop_wellFormed; assumption).
  assert (Hsingle : wellFormedEvent l single).
  { destruct (newEvent_facts (preparePot l) now (id p) res) as (Hres & _).
    unfold wellFormedEvent, single. rewrite Hres. split.
    - apply insert_non_empty.
    - rewrite dom_singleton_L. now apply singleton_subseteq_l. }
  assert (Hall : Forall (wellFormedEvent l) (merged ++ [single])).
  { apply Forall_app. split; [exact Hmerged | now constructor]. }
  intros ev Hev. rewrite Hq in Hev.
  apply list_elem_of_filter in Hev as [Hnot Hev]. split; [|exact Hnot].
  rewrite Forall_forall in Hall. destruct (Hall ev Hev) as [Hnon Hsub].
  split; [exact Hnon|]. now rewrite Hprocs.
Qed.

(** X8. [process] keeps the queue well formed: if every queued event holds
    at least one result and only results of registered processors, and
    the processor of the new result is registered, the same holds
    afterwards; moreover every event left in the queue holds fewer
    results than there are processors and its deadline lies ahead. *)
Theorem process_keeps_wellFormed l now (p : TemplateWaveformProcessor)
    (res : TemplateResult) w (linkerProc : Processor) :
  _processors l !! id p = Some linkerProc ->
  wellFormedQueue l ->
  wellFormedQueue (process l now p res w).1 /\
  (forall ev, ev ∈ _queue (process l now p res w).1 ->
     (1 <= getArrivalCount ev < getProcessorCount l)%nat /\ now < expired ev).
Proof.
  intros Hreg Hwf.
  assert (Hin : id p ∈ dom (_processors l)) by (apply elem_of_dom; eauto).
  pose proof (process_kept l now p res w Hin Hwf) as Hkept.
  assert (Hprocs : _processors (process l now p res w).1 = _processors l).
  { apply process_result. intros Hemp.
    rewrite Hemp, lookup_empty in Hreg. discriminate. }
  split.
  - unfold wellFormedQueue. apply Forall_forall. intros ev Hev.
    exact (proj1 (Hkept ev Hev)).
  - intros ev Hev. destruct (Hkept ev Hev) as [Hwfe Hnot].
    pose proof (wellFormedEvent_count _ ev Hwfe) as Hcount.
    unfold getProcessorCount in Hcount. rewrite Hprocs in Hcount.
    unfold sweepRemoves, fullyAssociated, pastDeadline in Hnot.
    unfold getProcessorCount in *. lia.
Qed.

(** X9. [feed] keeps the queue well formed, whatever is fed, and never
    changes the registered processors. *)
Theorem feed_keeps_wellFormed l now (p : option TemplateWaveformProcessor)
    (res : option MatchResult) w :
  wellFormedQueue l ->
  wellFormedQueue (feed l now p res w).1 /\
  _processors (feed l now p res w).1 = _processors l.
Proof.
  intros Hwf. unfold feed.
  destruct p as [p|], res as [res|]; try (split; [exact Hwf | reflexivity]).
  destruct (_ <? _); [|split; [exact Hwf | reflexivity]].
  destruct (_processors l !! id p) as [linkerProc|] eqn:Hreg;
    [|split; [exact Hwf | reflexivity]].
  destruct (templateStartTime (proc linkerProc));
    [|split; [exact Hwf | reflexivity]].
  assert (Hin : id p ∈ dom (_processors l)) by (apply elem_of_dom; eauto).
  split.
  - unfold wellFormedQueue. apply Forall_forall. intros ev Hev.
    exact (proj1 (process_kept l now p _ w Hin Hwf ev Hev)).
  - apply process_result. intros Hemp.
    rewrite Hemp, lookup_empty in Hreg. discriminate.
Qed.

Lemma merge_loop_expired l (procId : string) (res : TemplateResult)
    (ref : POT) q :
  expired <$> (merge_loop l procId res ref q).2 = expired <$> q.
Proof.
  pose proof (merge_loop_related l procId res ref q) as HF.
  induction HF as [|ev ev' q q' (He & _) _ IH]; [reflexivity|].
  rewrite !fmap_cons, He, IH. reflexivity.
Qed.

(** X10. [process] neither reorders the queue nor moves a deadline: the
    deadlines of the queue it leaves are, in order, deadlines of the
    queue it found, possibly followed by that of the new event,
    [now + onHold]. *)
Theorem process_keeps_order l now (p : TemplateWaveformProcessor)
    (res : TemplateResult) w :
  _processors l <> ∅ ->
  expired <$> _queue (process l now p res w).1
    `sublist_of` (expired <$> _queue l) ++ [now + _onHold l].
Proof.
  intros Hne. destruct (process_result l now p res w Hne) as (Hq & _).
  cbv zeta in Hq. rewrite Hq.
  pose proof (merge_loop_expired (preparePot l) (id p) res
                (_pot (preparePot l)) (_queue l)) as Hexp.
  rewrite <- Hexp, <- (preparePot_onHold l).
  change ([now + _onHold (preparePot l)])
    with (expired <$> [newEvent (preparePot l) now (id p) res]).
  rewrite <- fmap_app. apply fmap_sublist, sublist_filter.
Qed.

(** X11. With a single registered processor nothing is ever held: on an
    empty queue [process] leaves the queue empty and calls the result
    callback at once, with the result of the new event and nothing else,
    provided its fit reaches the result threshold if one is configured;
    below the threshold nothing is published. *)
Theorem process_single_processor l now (p : TemplateWaveformProcessor)
    (res : TemplateResult) w :
  getProcessorCount l = 1%nat ->
  _queue l = [] ->
  let single := newEvent (preparePot l) now (id p) res in
  _queue (process l now p res w).1 = [] /\
  (aboveThreshold l single ->
     (process l now p res w).2 = published l [result single] w) /\
  (~ aboveThreshold l single -> (process l now p res w).2 = w) /\
  results (result single) = {[ id p := res ]}.
Proof.
  intros Hone Hempty single.
  assert (Hne : _processors l <> ∅).
  { intros Hemp. unfold getProcessorCount in Hone.
    rewrite Hemp, map_size_empty in Hone. discriminate. }
  destruct (process_result l now p res w Hne) as (Hq & Hw & _).
  cbv zeta in Hq, Hw. rewrite Hempty in Hq, Hw. cbn [merge_loop snd app] in Hq, Hw.
  fold single in Hq, Hw.
  destruct (newEvent_facts (preparePot l) now (id p) res) as (Hres & Hcount & _).
  fold single in Hres, Hcount.
  assert (Hfull : fullyAssociated l single)
    by (unfold fullyAssociated; congruence).
  split; [|split; [|split; [|exact Hres]]].
  - rewrite Hq. rewrite filter_cons_False; [reflexivity|].
    intros Hnot. apply Hnot. now left.
  - intros Habove. rewrite Hw, emitAll_published.
    rewrite (filter_cons_True (sweepEmits l now)); [reflexivity|].
    split; [now left | exact Habove].
  - intros Hbelow. rewrite Hw.
    rewrite (filter_cons_False (sweepEmits l now)); [reflexivity|].
    intros [_ Habove]. contradiction.
Qed.

(** X12. With a positive on-hold time and more than one processor the new
    event, holding the result alone, is queued at the back and nothing is
    emitted for it. *)
Theorem process_holds_new_event l now (p : TemplateWaveformProcessor)
    (res : TemplateResult) w :
  _processors l <> ∅ ->
  0 < _onHold l ->
  getProcessorCount l <> 1%nat ->
  let single := newEvent (preparePot l) now (id p) res in
  last (_queue (process l now p res w).1) = Some single /\
  results (result single) = {[ id p := res ]} /\
  expired single = now + _onHold l /\
  ~ sweepEmits l now single.
Proof.
  intros Hne Hhold Hmany single.
  destruct (process_result l now p res w Hne) as (Hq & _). cbv zeta in Hq.
  fold single in Hq.
  destruct (newEvent_facts (preparePot l) now (id p) res)
    as (Hres & Hcount & Hexp & _).
  fold single in Hres, Hcount, Hexp. rewrite preparePot_onHold in Hexp.
  assert (Hfull : ~ fullyAssociated l single)
    by (unfold fullyAssociated; congruence).
  assert (Hpast : ~ pastDeadline now single)
    by (unfold pastDeadline; lia).
  split; [|split; [exact Hres | split; [exact Hexp|]]].
  - rewrite Hq, filter_app.
    rewrite filter_cons_True by (unfold sweepRemoves; tauto).
    apply last_snoc.
  - intros [[? | [? _]] _]; contradiction.
Qed.

(** X13. With an on-hold time of zero (or less) the new event is never
    held: on an empty queue [process] leaves the queue empty, and the
    result callback is called, with the result of the new event and
    nothing else, exactly when one arrival is enough (a single
    processor, or [minArrivals] of 1) and its fit reaches the result
    threshold if one is configured; otherwise the result is dropped and
    nothing is published. *)
Theorem process_without_hold l now (p : TemplateWaveformProcessor)
    (res : TemplateResult) w :
  _processors l <> ∅ ->
  _onHold l <= 0 ->
  _queue l = [] ->
  let single := newEvent (preparePot l) now (id p) res in
  let oneIsEnough :=
    getProcessorCount l = 1%nat \/
    exists k, _minArrivals l = Some k /\ (k <= 1)%nat in
  _queue (process l now p res w).1 = [] /\
  (oneIsEnough /\ aboveThreshold l single ->
     (process l now p res w).2 = published l [result single] w) /\
  (~ (oneIsEnough /\ aboveThreshold l single) ->
     (process l now p res w).2 = w).
Proof.
  intros Hne Hhold Hempty single oneIsEnough.
  destruct (process_result l now p res w Hne) as (Hq & Hw & _).
  cbv zeta in Hq, Hw. rewrite Hempty in Hq, Hw. cbn [merge_loop snd app] in Hq, Hw.
  fold single in Hq, Hw.
  destruct (newEvent_facts (preparePot l) now (id p) res)
    as (_ & Hcount & Hexp & _).
  fold single in Hcount, Hexp. rewrite preparePot_onHold in Hexp.
  assert (Hpast : pastDeadline now single) by (unfold pastDeadline; lia).
  assert (Hemit : sweepEmits l now single <-> oneIsEnough /\ aboveThreshold l single).
  { unfold sweepEmits, oneIsEnough, fullyAssociated, enoughArrivals.
    rewrite Hcount. split.
    - intros [[Hfull | [_ Henough]] Habove]; (split; [|exact Habove]).
      + left. congruence.
      + destruct (_minArrivals l) as [k|] eqn:Hk.
        * right. exists k. split; [reflexivity | exact Henough].
        * left. pose proof (map_size_non_empty_iff (_processors l)) as Hsz.
          unfold getProcessorCount in *. apply Hsz in Hne. lia.
    - intros [[Hone | (k & Hmin & Hk)] Habove]; (split; [|exact Habove]).
      + left. congruence.
      + right. split; [exact Hpast|]. rewrite Hmin. exact Hk. }
  split; [|split].
  - rewrite Hq. rewrite filter_cons_False; [reflexivity|].
    intros Hnot. apply Hnot. now right.
  - intros Hyes. rewrite Hw, emitAll_published.
    rewrite (filter_cons_True (sweepEmits l now)) by (now apply Hemit).
    reflexivity.
  - intros Hno. rewrite Hw.
    rewrite (filter_cons_False (sweepEmits l now)); [reflexivity|].
    intros Hyes. apply Hno. now apply Hemit.
Qed.

End Linker.
End linkerMore.

(** * Further runs of the linker *)

Module scenarioMoreFacts.
Import Double detector rules invariants scenario scenarioMore linkerFacts
  linkerMore scenarioFacts.

Lemma registered_by_size (l : @Linker _ Log) (n : nat) :
  size (_processors l) = S n -> _processors l <> ∅.
Proof. intros Hsz Hemp. rewrite Hemp, map_size_empty in Hsz. discriminate. Defined.

Lemma no_events (q : list Event) : List.length q = 0%nat -> q = [].
Proof. destruct q; [reflexivity | discriminate]. Defined.

Lemma front_lookup (q : list Event) (d : Event) :
  (0 < List.length q)%nat -> q !! 0%nat = Some (hd d q).
Proof. destruct q; cbn; [lia | reflexivity]. Defined.

(** Processor C is not registered with the linker of A and B. *)
Lemma add_remove_roundtrip_witness :
  _processors linkerAB !! id procC = None /\
  getProcessorCount (add (Some procC) arrivalC linkerAB)
    = S (getProcessorCount linkerAB) /\
  _processors (remove (id procC) (add (Some procC) arrivalC linkerAB))
    = _processors linkerAB /\
  getProcessorCount (remove (id procC) (add (Some procC) arrivalC linkerAB))
    = getProcessorCount linkerAB /\
  _potValid (add (Some procC) arrivalC linkerAB) = false /\
  _potValid (remove (id procC) (add (Some procC) arrivalC linkerAB)) = false.
Proof.
  assert (H0 : _processors linkerAB !! id procC = None) by observe.
  exact (conj H0 (add_remove_roundtrip linkerAB procC arrivalC H0)).
Defined.

(** The linker of A and B is terminated, then reset; a match of A is
    accepted again. *)
Lemma reset_rearms_witness :
  let binding := {| proc := procA; proc_arrival := arrivalA |} in
  let res := matchAt 50 0 in
  let l0 := reset (terminate queuedA ([] : Log)).1 in
  _processors queuedA !! id procA = Some binding /\
  templateStartTime (proc binding) = Some 0 /\
  _queue l0 = [] /\ status l0 = kWaitingForData /\
  _processors l0 = _processors queuedA /\
  _thresResult l0 = _thresResult queuedA /\
  _minArrivals l0 = _minArrivals queuedA /\
  _thresArrivalOffset l0 = _thresArrivalOffset queuedA /\
  terminate_loop l0 (_queue l0) ([] : Log) = [] /\
  feed l0 100 (Some procA) (Some res) ([] : Log)
  = process l0 100 procA
      {| arrival :=
           setPickTime (Core.startTime (timeWindow res)
                        + Core.TimeSpan_of_double (lag res)
                        + (time (pick (proc_arrival binding)) - 0))
                       (proc_arrival binding);
         matchResult := res |} [].
Proof.
  cbv zeta.
  assert (H0 : _processors queuedA !! id procA
               = Some {| proc := procA; proc_arrival := arrivalA |}) by observe.
  assert (H1 : templateStartTime (proc {| proc := procA; proc_arrival := arrivalA |})
               = Some 0) by reflexivity.
  exact (conj H0 (conj H1
           (reset_rearms queuedA [] 100 procA (matchAt 50 0)
              {| proc := procA; proc_arrival := arrivalA |} 0 H0 H1))).
Defined.

(** Three processors and no threshold: a result of C is merged into the
    front event, which holds A and B. *)
Lemma merge_loop_merges_into_all_witness :
  let l := queuedAB in
  let ev := frontEvent queuedAB in
  let res := {| arrival := setPickTime 12000000 arrivalC;
                matchResult := matchAt 70 9000000 |} in
  _thresArrivalOffset l = None /\
  _queue l !! 0%nat = Some ev /\
  (getArrivalCount ev < getProcessorCount l)%nat /\
  results (result ev) !! "C" = None /\
  exists ev', (merge_loop l "C" res (_pot l) (_queue l)).2 !! 0%nat = Some ev' /\
    results (result ev') = <["C" := res]> (results (result ev)) /\
    getArrivalCount ev' = S (getArrivalCount ev).
Proof.
  cbv zeta.
  assert (H0 : _thresArrivalOffset queuedAB = None) by observe.
  assert (H1 : _queue queuedAB !! 0%nat = Some (frontEvent queuedAB))
    by (apply front_lookup; vm_compute; lia).
  assert (H2 : (getArrivalCount (frontEvent queuedAB)
                < getProcessorCount queuedAB)%nat) by (vm_compute; lia).
  assert (H3 : results (result (frontEvent queuedAB)) !! "C" = None) by observe.
  exact (conj H0 (conj H1 (conj H2 (conj H3
           (proj1 (merge_loop_merges_into_all queuedAB "C" _ (_pot queuedAB)
                     (_queue queuedAB) 0 (frontEvent queuedAB) H0 H1)
              H2 H3))))).
Defined.

(** After [remove] of A and of B the events hold as many results as
    there are processors, or more: a result of C is merged into neither
    of them. *)
Example merge_loop_skips_full_events :
  let l := remove "B" (remove "A" queuedAB) in
  let res := {| arrival := setPickTime 12000000 arrivalC;
                matchResult := matchAt 70 9000000 |} in
  getProcessorCount l = 1%nat /\
  members <$> _queue l = [{["A"; "B"]}; {["B"]}] /\
  members <$> (merge_loop l "C" res (_pot l) (_queue l)).2
    = [{["A"; "B"]}; {["B"]}].
Proof. cbv zeta. observe. Qed.

(** The queue that holds one event, with a result of A. *)
Lemma queuedA_wellFormed : wellFormedQueue queuedA.
Proof.
  unfold wellFormedQueue.
  rewrite (one_event (_queue queuedA) (Event_make 0)) by (vm_compute; reflexivity).
  constructor; [|constructor]. split.
  - intros Hemp. apply (f_equal size) in Hemp. vm_compute in Hemp. discriminate.
  - assert (H1 : dom (results (result (hd (Event_make 0) (_queue queuedA))))
                 = ({["A"]} : gset string)) by (vm_compute; reflexivity).
    assert (H2 : dom (_processors queuedA) = ({["A"]} ∪ {["B"]} : gset string))
      by (vm_compute; reflexivity).
    rewrite H1, H2. apply union_subseteq_l.
Defined.

(** A match of B processed while the event of A is queued. *)
Lemma process_keeps_wellFormed_witness :
  let binding := {| proc := procB; proc_arrival := arrivalB |} in
  let after := (process queuedA 200 procB (resultB 90 0) ([] : Log)).1 in
  _processors queuedA !! id procB = Some binding /\
  wellFormedQueue queuedA /\
  wellFormedQueue after /\
  (forall ev, ev ∈ _queue after ->
     (1 <= getArrivalCount ev < getProcessorCount queuedA)%nat /\
     200 < expired ev).
Proof.
  cbv zeta.
  assert (H0 : _processors queuedA !! id procB
               = Some {| proc := procB; proc_arrival := arrivalB |}) by observe.
  exact (conj H0 (conj queuedA_wellFormed
           (process_keeps_wellFormed queuedA 200 procB (resultB 90 0) []
              {| proc := procB; proc_arrival := arrivalB |} H0
              queuedA_wellFormed))).
Defined.

Lemma feed_keeps_wellFormed_witness :
  let after :=
    (feed queuedA 200 (Some procB) (Some (matchAt 90 0)) ([] : Log)).1 in
  wellFormedQueue queuedA /\
  wellFormedQueue after /\ _processors after = _processors queuedA.
Proof.
  exact (conj queuedA_wellFormed
           (feed_keeps_wellFormed queuedA 200 (Some procB)
              (Some (matchAt 90 0)) [] queuedA_wellFormed)).
Defined.

Lemma process_keeps_order_witness :
  _processors queuedA <> ∅ /\
  expired <$> _queue (process queuedA 200 procB (resultB 90 0) ([] : Log)).1
    `sublist_of` (expired <$> _queue queuedA) ++ [200 + _onHold queuedA].
Proof.
  exact (conj queuedA_registered
           (process_keeps_order queuedA 200 procB (resultB 90 0) []
              queuedA_registered)).
Defined.

(** The deadlines in that run: the event of A, due at 10.0001 s, is
    emitted and leaves; the event of B, due at 10.0002 s, is queued. *)
Example process_keeps_order_run :
  expired <$> _queue queuedA = [10000100] /\
  expired <$> _queue (process queuedA 200 procB (resultB 90 0) ([] : Log)).1
    = [10000200].
Proof. observe. Qed.

(** One processor: a match of A is emitted at once. *)
Lemma process_single_processor_witness :
  let single := newEvent (preparePot linkerA) 100 (id procA) (resultA 50 0) in
  getProcessorCount linkerA = 1%nat /\
  _queue linkerA = [] /\
  aboveThreshold linkerA single /\
  _queue (process linkerA 100 procA (resultA 50 0) ([] : Log)).1 = [] /\
  (process linkerA 100 procA (resultA 50 0) ([] : Log)).2
    = published linkerA [result single] [] /\
  results (result single) = {[ id procA := resultA 50 0 ]} /\
  (fun r => dom (results r))
    <$> (process linkerA 100 procA (resultA 50 0) ([] : Log)).2
    = [{["A"]}].
Proof.
  assert (Hlog : (fun r => dom (results r))
                   <$> (process linkerA 100 procA (resultA 50 0) ([] : Log)).2
                 = [{["A"]}]) by (vm_compute; reflexivity).
  cbv zeta.
  assert (H0 : getProcessorCount linkerA = 1%nat) by observe.
  assert (H1 : _queue linkerA = []) by (apply no_events; vm_compute; reflexivity).
  assert (H2 : aboveThreshold linkerA
                 (newEvent (preparePot linkerA) 100 (id procA) (resultA 50 0)))
    by exact I.
  destruct (process_single_processor linkerA 100 procA (resultA 50 0) [] H0 H1)
    as (Hq & Hemit & _ & Hres).
  exact (conj H0 (conj H1 (conj H2 (conj Hq (conj (Hemit H2)
           (conj Hres Hlog)))))).
Defined.

(** Two processors and 10 s on hold: a match of A is queued. *)
Lemma process_holds_new_event_witness :
  let single := newEvent (preparePot linkerAB) 100 (id procA) (resultA 50 0) in
  _processors linkerAB <> ∅ /\
  0 < _onHold linkerAB /\
  getProcessorCount linkerAB <> 1%nat /\
  last (_queue (process linkerAB 100 procA (resultA 50 0) ([] : Log)).1)
    = Some single /\
  results (result single) = {[ id procA := resultA 50 0 ]} /\
  expired single = 100 + _onHold linkerAB /\
  ~ sweepEmits linkerAB 100 single.
Proof.
  cbv zeta.
  assert (H0 : _processors linkerAB <> ∅)
    by (apply (registered_by_size _ 1); vm_compute; reflexivity).
  assert (H1 : 0 < _onHold linkerAB) by (vm_compute; reflexivity).
  assert (H2 : getProcessorCount linkerAB <> 1%nat)
    by (vm_compute; discriminate).
  exact (conj H0 (conj H1 (conj H2
           (process_holds_new_event linkerAB 100 procA (resultA 50 0) []
              H0 H1 H2)))).
Defined.

(** Two processors, no hold, one arrival enough: a match of A is emitted
    at once. *)
Lemma process_without_hold_witness :
  let l := linkerAB_eager in
  let single := newEvent (preparePot l) 100 (id procA) (resultA 50 0) in
  let oneIsEnough :=
    getProcessorCount l = 1%nat \/
    exists k, _minArrivals l = Some k /\ (k <= 1)%nat in
  _processors l <> ∅ /\ _onHold l <= 0 /\ _queue l = [] /\
  (oneIsEnough /\ aboveThreshold l single) /\
  _queue (process l 100 procA (resultA 50 0) ([] : Log)).1 = [] /\
  (process l 100 procA (resultA 50 0) ([] : Log)).2
    = published l [result single] [] /\
  (fun r => dom (results r))
    <$> (process l 100 procA (resultA 50 0) ([] : Log)).2
    = [{["A"]}].
Proof.
  assert (Hlog : (fun r => dom (results r))
                   <$> (process linkerAB_eager 100 procA (resultA 50 0)
                          ([] : Log)).2
                 = [{["A"]}]) by (vm_compute; reflexivity).
  cbv zeta.
  assert (H0 : _processors linkerAB_eager <> ∅)
    by (apply (registered_by_size _ 1); vm_compute; reflexivity).
  assert (H1 : _onHold linkerAB_eager <= 0) by (vm_compute; discriminate).
  assert (H2 : _queue linkerAB_eager = [])
    by (apply no_events; vm_compute; reflexivity).
  assert (H3 : (getProcessorCount linkerAB_eager = 1%nat \/
                exists k, _minArrivals linkerAB_eager = Some k /\ (k <= 1)%nat) /\
               aboveThreshold linkerAB_eager
                 (newEvent (preparePot linkerAB_eager) 100 (id procA)
                    (resultA 50 0))).
  { split; [|exact I]. right. exists 1%nat. split; [reflexivity | lia]. }
  destruct (process_without_hold linkerAB_eager 100 procA (resultA 50 0) []
              H0 H1 H2) as (Hq & Hemit & _).
  exact (conj H0 (conj H1 (conj H2 (conj H3 (conj Hq
           (conj (Hemit H3) Hlog)))))).
Defined.

(** Without [minArrivals] the same match is dropped: nothing is emitted
    and nothing is queued. *)
Example process_without_hold_drops :
  let out := process linkerAB_noHold 100 procA (resultA 50 0) ([] : Log) in
  List.length (_queue out.1) = 0%nat /\ List.length out.2 = 0%nat.
Proof. cbv zeta. observe. Qed.

End scenarioMoreFacts.

(** * The validator of [minArrivals] *)

Module configMore.
Import config.

(** X14. [ValidateMinArrivals] accepts [n] exactly when [n] is negative,
    or [n] is at least one and there is at least one stream
    configuration: the count of stream configurations is never an upper
    bound for [n]. *)
Theorem ValidateMinArrivals_spec (n num_stream_configs : Z) :
  ValidateMinArrivals n num_stream_configs = true <->
  n < 0 \/ (1 <= n /\ 0 < num_stream_configs).
Proof.
  unfold ValidateMinArrivals.
  destruct (n <? 0) eqn:Hn; [apply Z.ltb_lt in Hn | apply Z.ltb_ge in Hn].
  { split; [left; exact Hn | reflexivity]. }
  destruct (0 <? num_stream_configs) eqn:Hk;
    [apply Z.ltb_lt in Hk | apply Z.ltb_ge in Hk].
  - rewrite Z.leb_le. split; [right; lia | intros [?|[? _]]; lia].
  - rewrite andb_true_iff, !Z.leb_le. split; [lia | intros [?|[? ?]]; lia].
Qed.

(** More arrivals than stream configurations are accepted. *)
Example ValidateMinArrivals_above :
  ValidateMinArrivals 5 2 = true /\ ValidateMinArrivals 1 0 = false /\
  ValidateMinArrivals 0 2 = false.
Proof. repeat split. Qed.

End configMore.

(** * Trimming and writing a trace *)

Module waveformMoreFacts.
Import Double waveform waveformMore waveformFacts.

Section Trim.
Context `{Core.Conversions}.

(** X15. A call of [Trim] that returns true for a window of at least one
    sample leaves exactly [samples] samples, and they are the segment of
    the old samples that starts at position [offset]. *)
Theorem Trim_segment (trace trace' : GenericRecord) (tw : Core.TimeWindow)
    (offset samples : Z) :
  Trim trace tw = Some (true, trace') ->
  Trim_offset trace tw = Some offset ->
  Trim_samples trace tw = Some samples ->
  0 < samples ->
  size trace' = samples /\
  exists before after,
    data trace = before ++ data trace' ++ after /\
    Z.of_nat (List.length before) = offset /\
    Z.of_nat (List.length after) = size trace - (offset + samples).
Proof.
  intros HT Ho Hs Hpos. rewrite Trim_unfold, Ho, Hs in HT.
  cbn [mbind option_bind] in HT.
  destruct (offset <? 0) eqn:Hneg; [discriminate|]. apply Z.ltb_ge in Hneg.
  destruct (int_add offset samples) as [last|] eqn:Hadd; [|discriminate].
  apply int_add_Some in Hadd. subst last. cbn [mbind option_bind] in HT.
  destruct (size trace <? offset + samples) eqn:Hend; [discriminate|].
  apply Z.ltb_ge in Hend. injection HT as <-.
  unfold size in *. cbn [data]. unfold slice.
  replace (offset + samples - offset) with samples by lia.
  split.
  - rewrite length_take, length_drop. lia.
  - exists (take (Z.to_nat offset) (data trace)),
           (drop (Z.to_nat samples) (drop (Z.to_nat offset) (data trace))).
    split; [|split].
    + now rewrite take_drop, take_drop.
    + rewrite length_take. lia.
    + rewrite !length_drop. lia.
Qed.

End Trim.

(** The window [0.5 s, 1.5 s) of the trace of eight samples. *)
Lemma Trim_segment_witness :
  size trace8_trimmed = 4 /\
  exists before after,
    data trace8 = before ++ data trace8_trimmed ++ after /\
    Z.of_nat (List.length before) = 2 /\
    Z.of_nat (List.length after) = size trace8 - (2 + 4).
Proof.
  apply (@Trim_segment Core.ref_conversions trace8 trace8_trimmed
           {| Core.startTime := 500000; Core.endTime := 1500000 |} 2 4).
  - vm_compute. reflexivity.
  - vm_compute. reflexivity.
  - vm_compute. reflexivity.
  - lia.
Defined.

Lemma int_shl1_Some (b : Z) :
  0 <= b <= 2 ^ 30 - 1 -> int_shl1 b = Some (2 * b).
Proof.
  intros Hb. unfold int_shl1, int_max.
  replace (0 <=? b) with true by (symmetry; apply Z.leb_le; lia).
  replace (2 * b <=? 2 ^ 31 - 1) with true by (symmetry; apply Z.leb_le; lia).
  reflexivity.
Qed.

Lemma NextPowerOfTwo_loop_spec (fuel : nat) (a max : Z) :
  max <= 2 ^ 30 - 1 ->
  forall b, 1 <= b <= 2 ^ 30 - 1 -> max < b * 2 ^ Z.of_nat fuel ->
  exists r, NextPowerOfTwo_loop (S fuel) a b max = Returns r /\ doubled a b max r.
Proof.
  intros Hmax. induction fuel as [|fuel IH]; intros b Hb Hfuel.
  - cbn [NextPowerOfTwo_loop]. change (2 ^ Z.of_nat 0) with 1 in Hfuel.
    destruct (b <? a) eqn:Hba; [apply Z.ltb_lt in Hba | apply Z.ltb_ge in Hba].
    + rewrite int_shl1_Some by lia.
      replace (max <? 2 * b) with true by (symmetry; apply Z.ltb_lt; lia).
      exists (-1). split; [reflexivity|]. right. split; [exact Hba|]. left.
      split; [reflexivity|]. intros k _.
      assert (0 < 2 ^ Z.of_nat k) by (apply Z.pow_pos_nonneg; lia). nia.
    + exists b. split; [reflexivity|]. left. lia.
  - remember (S fuel) as fuel' eqn:Hf. cbn [NextPowerOfTwo_loop]. subst fuel'.
    destruct (b <? a) eqn:Hba; [apply Z.ltb_lt in Hba | apply Z.ltb_ge in Hba].
    + rewrite int_shl1_Some by lia.
      destruct (max <? 2 * b) eqn:Hmb;
        [apply Z.ltb_lt in Hmb | apply Z.ltb_ge in Hmb].
      * exists (-1). split; [reflexivity|]. right. split; [exact Hba|]. left.
        split; [reflexivity|]. intros k Hk.
        destruct k as [|k]; [change (2 ^ Z.of_nat 0) with 1 in Hk; lia|].
        rewrite Nat2Z.inj_succ, Z.pow_succ_r by lia.
        assert (0 < 2 ^ Z.of_nat k) by (apply Z.pow_pos_nonneg; lia). nia.
      * destruct (IH (2 * b)) as (r & Hr & Hspec); [lia| |].
        { rewrite Nat2Z.inj_succ, Z.pow_succ_r in Hfuel by lia. lia. }
        exists r. split; [exact Hr|]. right. split; [exact Hba|].
        destruct Hspec as [[Hle ->] | [Hlt [[-> Hall] | (k & Hk & -> & Ha & Hm & H2)]]].
        -- right. exists 1%nat. change (2 ^ Z.of_nat 1) with 2.
           repeat split; lia.
        -- left. split; [reflexivity|]. intros k Hk.
           destruct k as [|k]; [change (2 ^ Z.of_nat 0) with 1 in Hk; lia|].
           rewrite Nat2Z.inj_succ, Z.pow_succ_r in Hk |- * by lia.
           replace (b * (2 * 2 ^ Z.of_nat k)) with (2 * b * 2 ^ Z.of_nat k) in Hk |- *
             by ring.
           now apply Hall.
        -- right. exists (S k). rewrite Nat2Z.inj_succ, Z.pow_succ_r by lia.
           replace (b * (2 * 2 ^ Z.of_nat k)) with (2 * b * 2 ^ Z.of_nat k) by ring.
           repeat split; lia.
    + exists b. split; [reflexivity|]. left. lia.
Qed.

(** X16. For [1 <= min] and bounds below [2^30], [NextPowerOfTwo]
    returns after at most 31 rounds.  It returns [min] for [a <= min],
    also when [min] is above [max]; otherwise it returns the first of
    [2 min, 4 min, ...] that reaches [a], provided that value is at most
    [max], and [-1] when no [min * 2^k] lies between [a] and [max]. *)
Theorem NextPowerOfTwo_spec (fuel : nat) (a min max : Z) :
  (32 <= fuel)%nat ->
  1 <= min <= 2 ^ 30 - 1 -> max <= 2 ^ 30 - 1 ->
  exists r, NextPowerOfTwo fuel a min max = Returns r /\
    ((a <= min /\ r = min) \/
     (min < a /\
      ((r = -1 /\
        forall k : nat, a <= min * 2 ^ Z.of_nat k -> max < min * 2 ^ Z.of_nat k) \/
       (exists k : nat, (0 < k)%nat /\ r = min * 2 ^ Z.of_nat k /\
          a <= r /\ r <= max /\ r < 2 * a)))).
Proof.
  intros Hfuel Hmin Hmax. destruct fuel as [|fuel]; [lia|].
  apply (NextPowerOfTwo_loop_spec fuel a max Hmax min Hmin).
  assert (2 ^ 31 <= 2 ^ Z.of_nat fuel) by (apply Z.pow_le_mono_r; lia).
  nia.
Qed.

Lemma NextPowerOfTwo_spec_witness :
  exists r, NextPowerOfTwo 32 1000 128 1048576 = Returns r /\
    ((1000 <= 128 /\ r = 128) \/
     (128 < 1000 /\
      ((r = -1 /\
        forall k : nat, 1000 <= 128 * 2 ^ Z.of_nat k -> 1048576 < 128 * 2 ^ Z.of_nat k) \/
       (exists k : nat, (0 < k)%nat /\ r = 128 * 2 ^ Z.of_nat k /\
          1000 <= r /\ r <= 1048576 /\ r < 2 * 1000)))).
Proof.
  apply (NextPowerOfTwo_spec 32 1000 128 1048576); [lia | lia | lia].
Defined.

(** The record lengths chosen for 1000 and for 1048577 bytes. *)
Example NextPowerOfTwo_run :
  NextPowerOfTwo 32 1000 128 1048576 = Returns 1024 /\
  NextPowerOfTwo 32 1048577 128 1048576 = Returns (-1) /\
  NextPowerOfTwo 32 100 128 1048576 = Returns 128.
Proof. repeat split. Qed.

(** With [min = 0] the loop never ends for a positive [a]. *)
Lemma NextPowerOfTwo_zero_min (fuel : nat) (a max : Z) :
  0 < a -> 0 <= max -> NextPowerOfTwo fuel a 0 max = OutOfFuel.
Proof.
  intros Ha Hmax. unfold NextPowerOfTwo.
  induction fuel as [|fuel IH]; [reflexivity|].
  cbn [NextPowerOfTwo_loop].
  replace (0 <? a) with true by (symmetry; apply Z.ltb_lt; lia).
  change (int_shl1 0) with (Some 0).
  cbv iota beta. destruct (Z.ltb_spec max 0); [lia | exact IH].
Qed.

Section Write.
Variable mseedWrite : Z -> GenericRecord -> bool.

(** X17. [Write] rounds the record length up to a power of two between
    128 and 1048576 bytes that holds the samples and 64 more bytes, and
    hands it to the encoder; a trace of more than 131064 samples does
    not fit and [Write] returns false without calling the encoder. *)
Theorem Write_spec (fuel : nat) (trace : GenericRecord) :
  (15 <= fuel)%nat ->
  size trace <= 268435447 ->
  (size trace <= 131064 ->
   exists (k : nat) (rec_length : Z),
     (7 <= k <= 20)%nat /\ rec_length = 2 ^ Z.of_nat k /\
     8 * size trace + 64 <= rec_length /\
     (rec_length = 128 \/ rec_length < 2 * (8 * size trace + 64)) /\
     Write mseedWrite fuel trace = Returns (mseedWrite rec_length trace)) /\
  (131064 < size trace -> Write mseedWrite fuel trace = Returns false).
Proof.
  intros Hfuel Hsz.
  assert (Hnn : 0 <= size trace) by (unfold size; lia).
  assert (Hlen : Write_rec_length trace = Some (8 * size trace + 64)).
  { unfold Write_rec_length, int_mul, int_add, elementSize, int_min, int_max.
    replace (- 2 ^ 31 <=? size trace * 8) with true
      by (symmetry; apply Z.leb_le; lia).
    replace (size trace * 8 <=? 2 ^ 31 - 1) with true
      by (symmetry; apply Z.leb_le; lia).
    cbn [andb mbind option_bind].
    replace (- 2 ^ 31 <=? size trace * 8 + 64) with true
      by (symmetry; apply Z.leb_le; lia).
    replace (size trace * 8 + 64 <=? 2 ^ 31 - 1) with true
      by (symmetry; apply Z.leb_le; lia).
    cbn [andb]. f_equal. ring. }
  destruct fuel as [|fuel]; [lia|].
  destruct (NextPowerOfTwo_loop_spec fuel (8 * size trace + 64) 1048576)
    with (b := 128) as (r & Hr & Hspec); [lia | lia | |].
  { assert (2 ^ 14 <= 2 ^ Z.of_nat fuel) by (apply Z.pow_le_mono_r; lia). lia. }
  unfold Write. rewrite Hlen. unfold NextPowerOfTwo. rewrite Hr.
  split.
  - intros Hfit.
    destruct Hspec as [[Hle ->] | [Hlt [[-> Hall] | (k & Hk & -> & Ha & Hm & H2)]]].
    + exists 7%nat, 128.
      split; [lia|]. split; [reflexivity|]. split; [lia|].
      split; [now left | reflexivity].
    + exfalso. specialize (Hall 13%nat). change (2 ^ Z.of_nat 13) with 8192 in Hall.
      lia.
    + assert (Hk20 : (k <= 13)%nat).
      { destruct (le_lt_dec k 13) as [|Hgt]; [assumption|]. exfalso.
        assert (2 ^ 14 <= 2 ^ Z.of_nat k) by (apply Z.pow_le_mono_r; lia). lia. }
      exists (7 + k)%nat, (128 * 2 ^ Z.of_nat k).
      assert (Hp : 0 < 2 ^ Z.of_nat k) by (apply Z.pow_pos_nonneg; lia).
      replace (128 * 2 ^ Z.of_nat k <=? 0) with false
        by (symmetry; apply Z.leb_gt; lia).
      split; [lia|]. split.
      { rewrite Nat2Z.inj_add, Z.pow_add_r by lia. reflexivity. }
      split; [lia|]. split; [right; lia | reflexivity].
  - intros Hbig.
    destruct Hspec as [[Hle ->] | [Hlt [[-> Hall] | (k & Hk & -> & Ha & Hm & H2)]]].
    + lia.
    + reflexivity.
    + lia.
Qed.

End Write.

(** Writing the trace of eight samples: 128 bytes per record. *)
Lemma Write_spec_witness :
  (15 <= 15)%nat /\ size trace8 <= 268435447 /\
  (size trace8 <= 131064 ->
   exists (k : nat) (rec_length : Z),
     (7 <= k <= 20)%nat /\ rec_length = 2 ^ Z.of_nat k /\
     8 * size trace8 + 64 <= rec_length /\
     (rec_length = 128 \/ rec_length < 2 * (8 * size trace8 + 64)) /\
     Write mseedWrite_ok 15 trace8 = Returns (mseedWrite_ok rec_length trace8)) /\
  (131064 < size trace8 -> Write mseedWrite_ok 15 trace8 = Returns false).
Proof.
  assert (H0 : (15 <= 15)%nat) by lia.
  assert (H1 : size trace8 <= 268435447) by (vm_compute; discriminate).
  exact (conj H0 (conj H1 (Write_spec mseedWrite_ok 15 trace8 H0 H1))).
Defined.

End waveformMoreFacts.

(** * Helpers on maps *)

Module maputilsFacts.
Import maputils.

Section filter_keys.
Context {K : Type} `{Countable K} {V : Type}.
Implicit Types (m : gmap K V) (p : K * V -> bool).

(** X18. [filter_keys] returns the keys whose pair satisfies the
    predicate, and no others; no key is returned twice; with a predicate
    that always holds, these are all keys of the map. *)
Theorem filter_keys_spec m p :
  (forall k, k ∈ filter_keys m p <-> exists v, m !! k = Some v /\ p (k, v) = true) /\
  NoDup (filter_keys m p) /\
  (List.length (filter_keys m p) <= size m)%nat /\
  filter_keys m (fun _ => true) = (map_to_list m).*1.
Proof.
  unfold filter_keys. repeat split.
  - intros Hk. apply list_elem_of_fmap in Hk as ([k' v] & -> & Hin).
    apply list_elem_of_filter in Hin as [Hp Hin].
    apply elem_of_map_to_list in Hin. exists v. split; [exact Hin|].
    now apply Is_true_true.
  - intros (v & Hv & Hp). apply list_elem_of_fmap. exists (k, v).
    split; [reflexivity|]. apply list_elem_of_filter. split.
    + now apply Is_true_true.
    + now apply elem_of_map_to_list.
  - eapply sublist_NoDup; [apply (NoDup_fst_map_to_list m)|].
    apply fmap_sublist, sublist_filter.
  - rewrite length_fmap. etransitivity; [apply length_filter|].
    now rewrite length_map_to_list.
  - f_equal. induction (map_to_list m) as [|x l IH]; [reflexivity|].
    rewrite filter_cons_True by exact I. now rewrite IH.
Qed.

End filter_keys.
End maputilsFacts.

(** * Processing and caching of waveforms *)

Module handlersFacts.
Import Double waveform waveformFacts handlers.

Section Process.
Context `{Core.Conversions} {Resamplers : Type} `{!Library Resamplers}.






(** X21. In raw mode the cache key ignores demeaning, the target
    frequency and which filter is asked for: two configurations that
    both filter, with the same margin, or both do not filter, share one
    cache entry. *)
Theorem MakeCacheKey_raw (net_code sta_code loc_code cha_code : string)
    (tw : Core.TimeWindow) (config config' : ProcessingConfig) :
  empty (filter_string config) = empty (filter_string config') ->
  (empty (filter_string config) = false ->
   filter_margin_time config = filter_margin_time config') ->
  MakeCacheKey true net_code sta_code loc_code cha_code tw config
  = MakeCacheKey true net_code sta_code loc_code cha_code tw config'.
Proof.
  intros Hempty Hmargin. unfold MakeCacheKey. rewrite <- Hempty.
  destruct (empty (filter_string config)); [reflexivity|].
  now rewrite (Hmargin eq_refl).
Qed.

Section Cached.
Context {Source : Type}.
Implicit Types s : State Resamplers Source.

(** X22. [InMemoryCache]: [Get] returns what the last [Set] for the key
    stored, a later [Set] replacing an earlier one, and other keys are
    not affected; after [Set(key, nullptr)] the key exists although
    [Get] returns a null pointer. *)
Theorem InMemoryCache_roundtrip (key key' : string) (value value' : option ptr) s :
  let s1 := (InMemoryCache_Set key value s).1 in
  let s2 := (InMemoryCache_Set key value' s1).1 in
  (InMemoryCache_Set key value s).2 = true /\
  (InMemoryCache_Get key s1).2 = value /\
  (InMemoryCache_Get key s2).2 = value' /\
  InMemoryCache_Exists key s1 = true /\
  (InMemoryCache_Get key s1).1 = s1 /\
  heap s1 = heap s /\
  (key' <> key ->
   (InMemoryCache_Get key' s1).2 = (InMemoryCache_Get key' s).2 /\
   InMemoryCache_Exists key' s1 = InMemoryCache_Exists key' s).
Proof.
  cbv zeta. unfold InMemoryCache_Get, InMemoryCache_Set, InMemoryCache_Exists.
  cbn [fst snd with_cache cache_ heap]. rewrite !lookup_insert_eq.
  repeat (split; [reflexivity|]).
  intros Hne. now rewrite !lookup_insert_ne by congruence.
Qed.

Lemma Process_at_Some (p : ptr) (record record' : GenericRecord)
    (config : ProcessingConfig) (tw : Core.TimeWindow) s
    (rs' : Resamplers) (e : option Exception) :
  heap s !! p = Some record ->
  Process record config tw (resamplers s) = Some (rs', record', e) ->
  Process_at (Some p) config tw s
  = Some (with_heap (<[p := record']> (heap s)) (with_resamplers rs' s), e).
Proof.
  intros Hp HP. unfold Process_at. rewrite Hp. cbn [mbind option_bind].
  now rewrite HP.
Qed.

Variable handler_Get :
  string -> string -> string -> string -> Core.TimeWindow -> ProcessingConfig ->
  State Resamplers Source ->
  State Resamplers Source * (Exception + option ptr).

(** On a hit the cached record itself is processed, in place, and handed
    out; the wrapped handler is not asked and nothing is stored. *)
Lemma InMemoryCache_hit (raw_ : bool) (net_code sta_code loc_code cha_code : string)
    (tw : Core.TimeWindow) (config : ProcessingConfig) s (p : ptr)
    (record record' : GenericRecord) (rs' : Resamplers) (e : option Exception) :
  IsValid net_code sta_code loc_code cha_code = true ->
  cache_ s !! MakeCacheKey raw_ net_code sta_code loc_code cha_code tw config
    = Some (Some p) ->
  heap s !! p = Some record ->
  Process record config tw (resamplers s) = Some (rs', record', e) ->
  Cached_Get InMemoryCache handler_Get raw_ net_code sta_code loc_code cha_code
    tw config s
  = Some (with_heap (<[p := record']> (heap s)) (with_resamplers rs' s),
          match e with
          | Some ex => inl ex
          | None => inr (Some p)
          end).
Proof.
  intros Hvalid Hkey Hp HP. unfold Cached_Get. rewrite Hvalid. cbn [negb].
  cbn [Get_key InMemoryCache InMemoryCache_Get fst snd]. rewrite Hkey.
  now rewrite (Process_at_Some p record record' config tw s rs' e Hp HP).
Qed.

(** X23. A cache of processed data processes its records again on every
    hit.  After a miss the record the wrapped handler returned is
    processed in place, stored and handed out; the next call with the
    same arguments does not ask the handler: it processes the stored
    record once more, in place, so that the record handed out by the
    first call now holds data processed twice. *)
Theorem InMemoryCache_processed_again
    (net_code sta_code loc_code cha_code : string)
    (tw : Core.TimeWindow) (config : ProcessingConfig) s s1 (p : ptr)
    (raw once twice : GenericRecord) (rs2 rs3 : Resamplers)
    (e : option Exception) :
  let key := MakeCacheKey false net_code sta_code loc_code cha_code tw config in
  let Get := Cached_Get InMemoryCache handler_Get false
               net_code sta_code loc_code cha_code tw config in
  IsValid net_code sta_code loc_code cha_code = true ->
  (InMemoryCache_Get key s).2 = None ->
  handler_Get net_code sta_code loc_code cha_code (corrected tw config)
    (disabled config) s = (s1, inr (Some p)) ->
  heap s1 !! p = Some raw ->
  Process raw config tw (resamplers s1) = Some (rs2, once, None) ->
  Process once config tw rs2 = Some (rs3, twice, e) ->
  exists s2 s3,
    Get s = Some (s2, inr (Some p)) /\
    heap s2 !! p = Some once /\
    (InMemoryCache_Get key s2).2 = Some p /\
    Get s2 = Some (s3, match e with
                       | Some ex => inl ex
                       | None => inr (Some p)
                       end) /\
    heap s3 !! p = Some twice /\
    source s3 = source s2 /\ cache_ s3 = cache_ s2.
Proof.
  intros key Get Hvalid Hmiss Hfetch Hp Honce Htwice.
  set (s2 := with_cache (<[key := Some p]> (cache_ s1))
               (with_heap (<[p := once]> (heap s1)) (with_resamplers rs2 s1))).
  assert (Hfirst : Get s = Some (s2, inr (Some p))).
  { unfold Get, Cached_Get. rewrite Hvalid. cbn [negb]. fold key.
    cbn [Get_key Set_key InMemoryCache] in *.
    cbn [InMemoryCache_Get fst snd] in Hmiss |- *. rewrite Hmiss, Hfetch.
    cbn [fst snd].
    rewrite (Process_at_Some p raw once config tw s1 rs2 None Hp Honce).
    reflexivity. }
  assert (Hheap : heap s2 !! p = Some once) by apply lookup_insert_eq.
  assert (Hkey : cache_ s2 !! key = Some (Some p)) by apply lookup_insert_eq.
  exists s2, (with_heap (<[p := twice]> (heap s2)) (with_resamplers rs3 s2)).
  split; [exact Hfirst|]. split; [exact Hheap|].
  split; [unfold InMemoryCache_Get; cbn [snd]; now rewrite Hkey|].
  split.
  - unfold Get. apply (InMemoryCache_hit false _ _ _ _ tw config s2 p once twice);
      assumption.
  - split; [apply lookup_insert_eq | split; reflexivity].
Qed.

(** X24. A cache of raw data holds raw data until the first hit only.
    After a miss the record the wrapped handler returned is stored as it
    is, also when processing then throws, and a processed copy at a
    fresh address is handed out.  The next call for the same key is
    handed the stored record itself, processed in place: from then on
    the entry holds processed data. *)
Theorem InMemoryCache_raw_until_hit
    (net_code sta_code loc_code cha_code : string)
    (tw : Core.TimeWindow) (config config' : ProcessingConfig) s s1 (p : ptr)
    (raw once again : GenericRecord) (rs2 rs3 : Resamplers)
    (e e' : option Exception) :
  let key := MakeCacheKey true net_code sta_code loc_code cha_code tw config in
  let copy := fresh (dom (heap s1)) in
  IsValid net_code sta_code loc_code cha_code = true ->
  (InMemoryCache_Get key s).2 = None ->
  handler_Get net_code sta_code loc_code cha_code (corrected tw config)
    (disabled config) s = (s1, inr (Some p)) ->
  heap s1 !! p = Some raw ->
  Process raw config tw (resamplers s1) = Some (rs2, once, e) ->
  MakeCacheKey true net_code sta_code loc_code cha_code tw config' = key ->
  Process raw config' tw rs2 = Some (rs3, again, e') ->
  exists s2 s3,
    Cached_Get InMemoryCache handler_Get true
      net_code sta_code loc_code cha_code tw config s
    = Some (s2, match e with
                | Some ex => inl ex
                | None => inr (Some copy)
                end) /\
    copy <> p /\
    heap s2 !! copy = Some once /\
    heap s2 !! p = Some raw /\
    (InMemoryCache_Get key s2).2 = Some p /\
    Cached_Get InMemoryCache handler_Get true
      net_code sta_code loc_code cha_code tw config' s2
    = Some (s3, match e' with
                | Some ex => inl ex
                | None => inr (Some p)
                end) /\
    heap s3 !! p = Some again /\
    (InMemoryCache_Get key s3).2 = Some p.
Proof.
  intros key copy Hvalid Hmiss Hfetch Hp Honce Hkey' Hagain.
  assert (Hcopy : copy <> p).
  { intros Heq. apply (is_fresh (dom (heap s1))). fold copy. rewrite Heq.
    apply elem_of_dom. eauto. }
  assert (Hnew : heap s1 !! copy = None).
  { apply not_elem_of_dom. apply is_fresh. }
  set (stored := with_cache (<[key := Some p]> (cache_ s1)) s1).
  set (copied := with_heap (<[copy := raw]> (heap s1)) stored).
  set (s2 := with_heap (<[copy := once]> (heap copied))
               (with_resamplers rs2 copied)).
  assert (Hfirst : Cached_Get InMemoryCache handler_Get true
            net_code sta_code loc_code cha_code tw config s
          = Some (s2, match e with
                      | Some ex => inl ex
                      | None => inr (Some copy)
                      end)).
  { unfold Cached_Get. rewrite Hvalid. cbn [negb]. fold key.
    cbn [Get_key Set_key InMemoryCache] in *.
    cbn [InMemoryCache_Get fst snd] in Hmiss |- *. rewrite Hmiss, Hfetch.
    cbn [fst snd InMemoryCache_Set]. fold stored.
    unfold make_smart. cbn [mbind option_bind].
    change (heap stored) with (heap s1). rewrite Hp. cbn [mbind option_bind].
    fold copy. fold copied. cbn [fst snd].
    rewrite (Process_at_Some copy raw once config tw copied rs2 e);
      [reflexivity | apply lookup_insert_eq | exact Honce]. }
  assert (Hheap_p : heap s2 !! p = Some raw).
  { unfold s2, copied. cbn [heap with_heap with_resamplers with_cache].
    rewrite !lookup_insert_ne by exact Hcopy. exact Hp. }
  assert (Hkey : cache_ s2 !! key = Some (Some p)) by apply lookup_insert_eq.
  exists s2, (with_heap (<[p := again]> (heap s2)) (with_resamplers rs3 s2)).
  split; [exact Hfirst|]. split; [exact Hcopy|].
  split; [apply lookup_insert_eq|]. split; [exact Hheap_p|].
  split; [unfold InMemoryCache_Get; cbn [snd]; now rewrite Hkey|].
  split.
  - apply (InMemoryCache_hit true _ _ _ _ tw config' s2 p raw again);
      [exact Hvalid | now rewrite Hkey' | exact Hheap_p | exact Hagain].
  - split; [apply lookup_insert_eq|].
    unfold InMemoryCache_Get. cbn [snd with_heap with_resamplers cache_].
    now rewrite Hkey.
Qed.

End Cached.
End Process.

End handlersFacts.

(** * The cache in front of a handler that serves one trace *)

Module handlersScenarioFacts.
Import Double waveform handlers handlersScenario handlersFacts scenario.


Lemma MakeCacheKey_raw_witness :
  MakeCacheKey true "CH" "GRIMS" "" "HHZ" window gain
  = MakeCacheKey true "CH" "GRIMS" "" "HHZ" window gain_demeaned.
Proof.
  apply (MakeCacheKey_raw "CH" "GRIMS" "" "HHZ" window gain gain_demeaned).
  - reflexivity.
  - intros _. reflexivity.
Defined.

(** The keys of the two modes. *)
Example MakeCacheKey_run :
  MakeCacheKey true "CH" "GRIMS" "" "HHZ" window gain
    = "CH.GRIMS..HHZ.500000.1500000" /\
  MakeCacheKey false "CH" "GRIMS" "" "HHZ" window gain
    = "CH.GRIMS..HHZ.500000.1500000.GAIN2".
Proof. split; vm_compute; reflexivity. Qed.

(** Two calls for the window [0.5 s, 1.5 s) with the doubling filter,
    cache of processed data: the record of the first call holds the
    samples doubled twice after the second. *)
Lemma InMemoryCache_processed_again_witness :
  exists s2 s3,
    Cached_Get InMemoryCache fetch false "CH" "GRIMS" "" "HHZ" window gain s0
      = Some (s2, inr (Some 1%positive)) /\
    heap s2 !! 1%positive = Some trace8_once /\
    (InMemoryCache_Get
       (MakeCacheKey false "CH" "GRIMS" "" "HHZ" window gain) s2).2
      = Some 1%positive /\
    Cached_Get InMemoryCache fetch false "CH" "GRIMS" "" "HHZ" window gain s2
      = Some (s3, inr (Some 1%positive)) /\
    heap s3 !! 1%positive = Some trace8_twice /\
    source s3 = source s2 /\ cache_ s3 = cache_ s2.
Proof.
  apply (InMemoryCache_processed_again fetch "CH" "GRIMS" "" "HHZ" window gain
           s0 (fetch "CH" "GRIMS" "" "HHZ" (corrected window gain)
                 (disabled gain) s0).1
           1%positive trace8 trace8_once trace8_twice tt tt None).
  - vm_compute. reflexivity.
  - vm_compute. reflexivity.
  - vm_compute. reflexivity.
  - vm_compute. reflexivity.
  - vm_compute. reflexivity.
  - vm_compute. reflexivity.
Defined.

(** The same two calls with a cache of raw data; the second asks for
    demeaning as well, and leaves the demeaned, doubled and trimmed
    samples in the cache. *)
Lemma InMemoryCache_raw_until_hit_witness :
  exists s2 s3,
    Cached_Get InMemoryCache fetch true "CH" "GRIMS" "" "HHZ" window gain s0
      = Some (s2, inr (Some 2%positive)) /\
    2%positive <> 1%positive /\
    heap s2 !! 2%positive = Some trace8_once /\
    heap s2 !! 1%positive = Some trace8 /\
    (InMemoryCache_Get
       (MakeCacheKey true "CH" "GRIMS" "" "HHZ" window gain) s2).2
      = Some 1%positive /\
    Cached_Get InMemoryCache fetch true "CH" "GRIMS" "" "HHZ" window
      gain_demeaned s2
      = Some (s3, inr (Some 1%positive)) /\
    heap s3 !! 1%positive = Some trace8_demeaned /\
    (InMemoryCache_Get
       (MakeCacheKey true "CH" "GRIMS" "" "HHZ" window gain) s3).2
      = Some 1%positive.
Proof.
  apply (InMemoryCache_raw_until_hit fetch "CH" "GRIMS" "" "HHZ" window gain
           gain_demeaned s0
           (fetch "CH" "GRIMS" "" "HHZ" (corrected window gain)
              (disabled gain) s0).1
           1%positive trace8 trace8_once trace8_demeaned tt tt None None).
  - vm_compute. reflexivity.
  - vm_compute. reflexivity.
  - vm_compute. reflexivity.
  - vm_compute. reflexivity.
  - vm_compute. reflexivity.
  - vm_compute. reflexivity.
  - vm_compute. reflexivity.
Defined.

End handlersScenarioFacts.
